(** * pycfi: locating a text query inside an EPUB publication

    A shallow embedding of [main.py] and the properties of its locate
    pipeline: spine resolution ([map_spine_to_files]), the position of the
    spine among the package's children ([get_spine_xml_position]) and the
    scan that finds a query and traces its structural address
    ([traverse_and_trace_query]).

    Conventions of the embedding:
    - a Python [str] is a [string], one [ascii] standing for one character;
    - a Python [int] that can be negative is a [Z], a length or a 1-based
      ordinal is a [nat];
    - a [dict] is a [gmap];
    - a raised exception is the [Raise] outcome of the [result] type;
    - the file system and the markup parser are capabilities the program
      receives: they are the variables [fs] and [parse] of the sections. *)

From Stdlib Require Import String Ascii ZArith.
From stdpp Require Import base option list sorting gmap strings pretty.

Local Set Warnings "-register-all".
Local Open Scope string_scope.
Local Open Scope nat_scope.
Local Open Scope list_scope.

(** ** Python string operations *)

(** [sub in s] *)
Definition str_in (sub s : string) : bool :=
  match String.index 0 sub s with
  | Some _ => true
  | None => false
  end.

(** [s.find(sub)]: the lowest offset at which [sub] occurs, or -1 *)
Definition str_find (s sub : string) : Z :=
  match String.index 0 sub s with
  | Some n => Z.of_nat n
  | None => (-1)%Z
  end.

(** [len(s)] *)
Definition len (s : string) : Z := Z.of_nat (String.length s).

(** [s[a:b]] for offsets [0 <= a <= b] *)
Definition slice (s : string) (a b : Z) : string :=
  String.substring (Z.to_nat a) (Z.to_nat (b - a)) s.

(** [bool(s)]: a string is true when it is not empty *)
Definition str_bool (s : string) : bool :=
  match s with
  | EmptyString => false
  | String _ _ => true
  end.

(** [sep.join(parts)] *)
Fixpoint join (sep : string) (parts : list string) : string :=
  match parts with
  | [] => ""
  | [p] => p
  | p :: rest => p +:+ sep +:+ join sep rest
  end.

(** [str(n)] for a non-negative integer *)
Definition str (n : nat) : string := pretty n.

(** [s.startswith("/")] and [s.endswith("/")] *)
Definition startswith_sep (s : string) : bool :=
  match s with
  | String c _ => bool_decide (c = "/"%char)
  | EmptyString => false
  end.

Fixpoint endswith_sep (s : string) : bool :=
  match s with
  | EmptyString => false
  | String c EmptyString => bool_decide (c = "/"%char)
  | String _ rest => endswith_sep rest
  end.

(** [os.path.join(a, b)] of the POSIX path module *)
Definition os_path_join (a b : string) : string :=
  if startswith_sep b then b
  else if negb (str_bool a) || endswith_sep a then a +:+ b
  else a +:+ "/" +:+ b.

(** ** Exceptions *)

Inductive exn : Type :=
| OSError (path : string)      (* [open] on a file that cannot be read *)
| KeyError (key : string)      (* a missing dictionary key or attribute *)
| AttributeError.              (* a method called on [None] *)

Inductive result (A : Type) : Type :=
| Ok (a : A)
| Raise (e : exn).
Arguments Ok {A} a.
Arguments Raise {A} e.

(** ** The parsed tree *)

(** What the parser yields: tags with a name, attributes and contents, and
    strings (text, and also comments, CDATA sections and declarations,
    which the library keeps as strings too). *)
Inductive PageElement : Type :=
| Tag (name : string) (attrs : list (string * string)) (contents : list PageElement)
| NavigableString (text : string).

(** A tag as the tree links it: the library gives every element its parent
    and its previous siblings (nearest first). A tag without a parent is the
    root of the tree. *)
Inductive TagRef : Type :=
| mkTagRef (tag_name : string) (previous_siblings : list PageElement)
           (tag_parent : option TagRef).

Definition tag_name (t : TagRef) : string :=
  match t with mkTagRef n _ _ => n end.
Definition previous_siblings (t : TagRef) : list PageElement :=
  match t with mkTagRef _ p _ => p end.
Definition tag_parent (t : TagRef) : option TagRef :=
  match t with mkTagRef _ _ p => p end.

(** A string of the tree, with the tag that holds it. *)
Record StringRef : Type := mkStringRef {
  string_text : string;
  string_parent : TagRef
}.

Definition is_tag (e : PageElement) : bool :=
  match e with
  | Tag _ _ _ => true
  | NavigableString _ => false
  end.

Definition is_tag_named (name : string) (e : PageElement) : bool :=
  match e with
  | Tag n _ _ => bool_decide (n = name)
  | NavigableString _ => false
  end.

(** [t.find_previous_siblings(name)] *)
Definition find_previous_siblings (t : TagRef) (name : string) : list PageElement :=
  filter (fun e => is_tag_named name e = true) (previous_siblings t).

(** The strings below an element, depth first and in the order of the
    markup; [parent] is the tag that holds the element and [before] its
    previous siblings. *)
Fixpoint strings_of (parent : TagRef) (before : list PageElement)
    (e : PageElement) : list StringRef :=
  match e with
  | NavigableString s => [mkStringRef s parent]
  | Tag n _ cs =>
      let me := mkTagRef n before (Some parent) in
      (fix children (prev cs : list PageElement) : list StringRef :=
         match cs with
         | [] => []
         | c :: rest => strings_of me prev c ++ children (c :: prev) rest
         end) [] cs
  end.

Fixpoint strings_in (me : TagRef) (prev cs : list PageElement) : list StringRef :=
  match cs with
  | [] => []
  | c :: rest => strings_of me prev c ++ strings_in me (c :: prev) rest
  end.

(** The object the parser returns: a tag named [[document]] without parent,
    holding the top-level nodes of the markup. *)
Definition document_name : string := "[document]".

Definition document_ref : TagRef := mkTagRef document_name [] None.

(** [soup.find_all(string=True)] on the tree whose top-level nodes are [top]:
    the strings among the descendants of the root, in document order. The
    library passes over the elements that are false ([if i:] in its search
    loop), which for a string means empty: an empty string is never part of
    the result. *)
Definition find_all_strings (top : list PageElement) : list StringRef :=
  filter (fun element => str_bool (string_text element) = true)
    (strings_in document_ref [] top).

(** The first tag named [name] among an element and its descendants. *)
Fixpoint find_from (name : string) (e : PageElement) : option PageElement :=
  match e with
  | NavigableString _ => None
  | Tag n _ cs =>
      if bool_decide (n = name) then Some e
      else (fix first (cs : list PageElement) : option PageElement :=
              match cs with
              | [] => None
              | c :: rest =>
                  match find_from name c with
                  | Some r => Some r
                  | None => first rest
                  end
              end) cs
  end.

(** [soup.find(name)] *)
Fixpoint find (top : list PageElement) (name : string) : option PageElement :=
  match top with
  | [] => None
  | c :: rest =>
      match find_from name c with
      | Some r => Some r
      | None => find rest name
      end
  end.

(** [tag.find_all(recursive=False)]: the direct children that are tags *)
Definition find_all_children (e : PageElement) : list PageElement :=
  match e with
  | Tag _ _ cs => filter (fun c => is_tag c = true) cs
  | NavigableString _ => []
  end.

(** [tag.name]; the program reads it on tags only. *)
Definition name_of (e : PageElement) : string :=
  match e with
  | Tag n _ _ => n
  | NavigableString _ => ""
  end.

(** ** The program *)

(** The result of [traverse_and_trace_query]: a tuple of seven values, named
    as [process_epub] names them. *)
Record address : Type := mkAddress {
  spine_idx : option nat;
  total_spines : option nat;
  matching_file : option string;
  element_path : option string;
  file_index : option string;
  start_offset : Z;
  end_offset : Z
}.

(** [return None, None, None, None, None, -1, -1] *)
Definition not_found : address :=
  mkAddress None None None None None (-1) (-1).

(** [map_spine_to_files]: the list comprehension looks every id up in the
    manifest, in order; a missing key raises. *)
Fixpoint map_spine_to_files (manifest : gmap string string) (spine : list string)
    (base_path : string) : result (list string) :=
  match spine with
  | [] => Ok []
  | item_id :: rest =>
      match manifest !! item_id with
      | None => Raise (KeyError item_id)
      | Some href =>
          match map_spine_to_files manifest rest base_path with
          | Ok spine_files => Ok (os_path_join base_path href :: spine_files)
          | Raise e => Raise e
          end
      end
  end.

(** The loop of [get_spine_xml_position] over [enumerate(package_children)]. *)
Fixpoint spine_position_from (idx : nat) (children : list PageElement)
    (total : nat) : Z * nat :=
  match children with
  | [] => ((-1)%Z, total)
  | child :: rest =>
      if bool_decide (name_of child = "spine") then ((Z.of_nat idx + 1)%Z, total)
      else spine_position_from (S idx) rest total
  end.

(** The search loop of [traverse_and_trace_query] over the strings of one
    document: the state is [(element_with_query, match_start, match_end)]. *)
Fixpoint search_query (elements : list StringRef) (query : string)
    : option StringRef * Z * Z :=
  match elements with
  | [] => (None, (-1)%Z, (-1)%Z)
  | element :: rest =>
      if str_in query (string_text element) then
        let match_start := str_find (string_text element) query in
        let match_end := (match_start + len query)%Z in
        (Some element, match_start, match_end)
      else search_query rest query
  end.

(** [f"{current_element.name}[{element_position}]"] *)
Definition step_label (name : string) (element_position : nat) : string :=
  name +:+ "[" +:+ str element_position +:+ "]".

(** The ancestor walk, [while current_element:]; [element_path] grows at its
    end ([append]), [file_index] at its front ([insert(0, _)]). *)
Fixpoint trace_loop (current_element : TagRef) (element_path : list string)
    (file_index : list nat) : list string * list nat :=
  let siblings := find_previous_siblings current_element (tag_name current_element) in
  let element_position := length siblings + 1 in
  let element_path :=
    element_path ++ [step_label (tag_name current_element) element_position] in
  let file_index :=
    if bool_decide (tag_name current_element <> "html")
    then element_position :: file_index
    else file_index in
  match current_element with
  | mkTagRef _ _ (Some parent) => trace_loop parent element_path file_index
  | mkTagRef _ _ None => (element_path, file_index)
  end.

(** The two lists once the walk is over and [element_path] is reversed. *)
Definition trace (element_with_query : StringRef) : list string * list nat :=
  let '(element_path, file_index) :=
    trace_loop (string_parent element_with_query) [] [] in
  (reverse element_path, file_index).

Section Program.

(** [fs path] is the text of the file at [path], [None] when [open] fails. *)
Variable fs : string -> option string.

(** [parse features markup] is the list of top-level nodes the parser
    builds from [markup]. *)
Variable parse : string -> string -> list PageElement.

(** [BeautifulSoup(markup, features)]: the top-level nodes of the root. *)
Definition BeautifulSoup (markup features : string) : list PageElement :=
  parse features markup.

Definition get_spine_xml_position (content_opf_path : string) : result (Z * nat) :=
  match fs content_opf_path with
  | None => Raise (OSError content_opf_path)
  | Some opf_content =>
      let soup := BeautifulSoup opf_content "xml" in
      match find soup "package" with
      | None => Raise AttributeError
      | Some package =>
          let package_children := find_all_children package in
          Ok (spine_position_from 0 package_children (length package_children))
      end
  end.

(** The outer loop, [for spine_idx, file_path in enumerate(spine_files)],
    from position [spine_idx]; [total] is [len(spine_files)]. *)
Fixpoint traverse_from (spine_idx total : nat) (files : list string)
    (query : string) : result address :=
  match files with
  | [] => Ok not_found
  | file_path :: rest =>
      match fs file_path with
      | None => Raise (OSError file_path)
      | Some content =>
          let soup := BeautifulSoup content "html.parser" in
          let '(element_with_query, match_start, match_end) :=
            search_query (find_all_strings soup) query in
          match element_with_query with
          | Some element =>
              (* [if element_with_query:] a string is true when not empty *)
              if str_bool (string_text element) then
                let '(element_path, file_index) := trace element in
                Ok (mkAddress (Some (spine_idx + 1)) (Some total) (Some file_path)
                      (Some (join "/" element_path))
                      (Some (join "/" (map str file_index)))
                      match_start match_end)
              else traverse_from (S spine_idx) total rest query
          | None => traverse_from (S spine_idx) total rest query
          end
      end
  end.

Definition traverse_and_trace_query (spine_files : list string) (query : string)
    : result address :=
  traverse_from 0 (length spine_files) spine_files query.

End Program.

(** * Notions used to state the properties *)

(** ** Ancestors and ordinals *)

(** A tag and the tags above it, from the tag up to the root. *)
Fixpoint ancestors (t : TagRef) : list TagRef :=
  match t with
  | mkTagRef _ _ (Some parent) => t :: ancestors parent
  | mkTagRef _ _ None => [t]
  end.

(** The sibling ordinal of a tag: one more than the number of its previous
    siblings that are tags of the same name. *)
Definition ordinal (t : TagRef) : nat :=
  length (filter (fun e => is_tag_named (tag_name t) e = true) (previous_siblings t)) + 1.

Definition label (t : TagRef) : string :=
  step_label (tag_name t) (ordinal t).

Definition not_html (t : TagRef) : Prop := tag_name t ≠ "html".

Global Instance not_html_dec (t : TagRef) : Decision (not_html t) :=
  decide (tag_name t ≠ "html").

Definition TagRef_ind' (P : TagRef -> Prop)
    (Hroot : ∀ n p, P (mkTagRef n p None))
    (Hchild : ∀ n p q, P q -> P (mkTagRef n p (Some q))) : ∀ t, P t :=
  fix go (t : TagRef) : P t :=
    match t with
    | mkTagRef n p None => Hroot n p
    | mkTagRef n p (Some q) => Hchild n p q (go q)
    end.

(** Induction over a tree, with the property at hand for every child. *)
Definition PageElement_ind' (P : PageElement -> Prop)
    (Hstring : ∀ s, P (NavigableString s))
    (Htag : ∀ n a cs, Forall P cs -> P (Tag n a cs)) : ∀ e, P e :=
  fix go (e : PageElement) : P e :=
    match e with
    | NavigableString s => Hstring s
    | Tag n a cs =>
        Htag n a cs
          ((fix all (cs : list PageElement) : Forall P cs :=
              match cs with
              | [] => List.Forall_nil P
              | c :: rest => List.Forall_cons P c rest (go c) (all rest)
              end) cs)
    end.

(** ** Strings and positions in the tree

    A position is a path of child indices from the root. The strings of the
    scan are tied to the positions of the tree: each comes with the tags on
    its path, and they come in document order. *)

(** The string at [path] below the children [nodes] of the tag [me], with
    the tag that holds it: each tag on the path has for previous siblings
    the nodes before it, nearest first. *)
Fixpoint string_at (me : TagRef) (nodes : list PageElement) (path : list nat)
    : option StringRef :=
  match path with
  | [] => None
  | i :: rest =>
      match nodes !! i with
      | Some (NavigableString s) =>
          match rest with
          | [] => Some (mkStringRef s me)
          | _ :: _ => None
          end
      | Some (Tag n _ cs) =>
          string_at (mkTagRef n (reverse (take i nodes)) (Some me)) cs rest
      | None => None
      end
  end.

(** The paths of the strings below an element, depth first. *)
Fixpoint string_paths_of (e : PageElement) : list (list nat) :=
  match e with
  | NavigableString _ => [[]]
  | Tag _ _ cs =>
      (fix children (i : nat) (cs : list PageElement) : list (list nat) :=
         match cs with
         | [] => []
         | c :: rest => map (cons i) (string_paths_of c) ++ children (S i) rest
         end) 0 cs
  end.

Fixpoint string_paths_in (i : nat) (cs : list PageElement) : list (list nat) :=
  match cs with
  | [] => []
  | c :: rest => map (cons i) (string_paths_of c) ++ string_paths_in (S i) rest
  end.

(** Document order: the lexicographic order of the paths. *)
Inductive path_lt : list nat -> list nat -> Prop :=
| path_lt_head i j p q : i < j -> path_lt (i :: p) (j :: q)
| path_lt_tail i p q : path_lt p q -> path_lt (i :: p) (i :: q).

Definition strings_at_paths (e : PageElement) : Prop :=
  ∀ me before after,
    Some <$> strings_of me (reverse before) e
    = (fun p => string_at me (before ++ e :: after) (length before :: p))
      <$> string_paths_of e.

(** ** Matches and addresses *)

(** [element] is the first of [elements] whose text contains [query]. *)
Definition first_match (elements : list StringRef) (query : string)
    (element : StringRef) : Prop :=
  ∃ before after,
    elements = before ++ element :: after ∧
    (∀ e, e ∈ before -> str_in query (string_text e) = false) ∧
    str_in query (string_text element) = true.

(** The tuple returned for a match on [element], found in the document at
    position [spine_idx] (counted from 0) of a spine of [total] documents. *)
Definition address_of (spine_idx total : nat) (file_path : string)
    (element : StringRef) (query : string) : address :=
  let match_start := str_find (string_text element) query in
  mkAddress (Some (spine_idx + 1)) (Some total) (Some file_path)
    (Some (join "/" (trace element).1))
    (Some (join "/" (map str (trace element).2)))
    match_start (match_start + len query)%Z.

(** The offsets of a result delimit the first occurrence of [query] in
    [text]. *)
Definition first_occurrence (r : address) (text query : string) : Prop :=
  (0 ≤ start_offset r)%Z ∧
  end_offset r = (start_offset r + len query)%Z ∧
  (end_offset r ≤ len text)%Z ∧
  slice text (start_offset r) (end_offset r) = query ∧
  ∀ k, (0 ≤ k < start_offset r)%Z -> slice text k (k + len query) ≠ query.

Section Documents.

Variable fs : string -> option string.
Variable parse : string -> string -> list PageElement.

(** The strings of the document stored at [file_path], in scan order. *)
Definition strings_of_file (file_path : string) : option (list StringRef) :=
  match fs file_path with
  | Some content => Some (find_all_strings (BeautifulSoup parse content "html.parser"))
  | None => None
  end.

(** The document at [file_path] can be read and none of its strings
    contains [query]. *)
Definition no_match_in (file_path query : string) : Prop :=
  ∃ elements, strings_of_file file_path = Some elements ∧
    ∀ e, e ∈ elements -> str_in query (string_text e) = false.

(** A successful result comes from the [return] inside the loop: some
    document of the spine has a first matching string, and the result is
    the address of that string. *)
Definition locates (spine_files : list string) (query : string)
    (r : address) (element : StringRef) : Prop :=
  ∃ i file_path elements,
    spine_files !! i = Some file_path ∧
    strings_of_file file_path = Some elements ∧
    first_match elements query element ∧
    r = address_of i (length spine_files) file_path element query.

End Documents.

(** ** The spec's words for the index path *)

(** Following the spec's words for the index path: the name of the
    document's outermost element, the first tag among its top-level nodes. *)
Definition outermost_element_name (top : list PageElement) : option string :=
  match filter (fun e => is_tag e = true) top with
  | e :: _ => Some (name_of e)
  | [] => None
  end.

(** Following the spec's words: the ordinals of the ancestor chain, leaving
    out the step whose name is [outermost]. *)
Definition spec_index_path (outermost : string) (chain : list TagRef) : list nat :=
  map ordinal (filter (fun t => tag_name t ≠ outermost) chain).

(** ** A small publication *)

Module Example.

Definition ch1_markup : string :=
  "<html><body><p>Nothing here</p></body></html>".
Definition ch2_markup : string :=
  "<html><body><div><p>First</p><p>Hello world</p></div></body></html>".
Definition fragment_markup : string := "<div><p>hello</p></div>".
Definition opf_markup : string :=
  "<package><metadata/><manifest/><spine/></package>".
Definition opf_nospine_markup : string :=
  "<package><metadata/><manifest/></package>".

Definition ch1 : list PageElement :=
  [Tag "html" [] [Tag "body" [] [Tag "p" [] [NavigableString "Nothing here"]]]].
Definition ch2 : list PageElement :=
  [Tag "html" []
     [Tag "body" []
        [Tag "div" []
           [Tag "p" [] [NavigableString "First"];
            Tag "p" [] [NavigableString "Hello world"]]]]].
Definition fragment : list PageElement :=
  [Tag "div" [] [Tag "p" [] [NavigableString "hello"]]].
Definition opf : list PageElement :=
  [Tag "package" []
     [Tag "metadata" [] []; Tag "manifest" [] []; Tag "spine" [] []]].
Definition opf_nospine : list PageElement :=
  [Tag "package" [] [Tag "metadata" [] []; Tag "manifest" [] []]].

Definition table : list (string * (string * list PageElement)) :=
  [("OEBPS/ch1.xhtml", (ch1_markup, ch1));
   ("OEBPS/ch2.xhtml", (ch2_markup, ch2));
   ("OEBPS/fragment.xhtml", (fragment_markup, fragment));
   ("OEBPS/content.opf", (opf_markup, opf));
   ("OEBPS/nospine.opf", (opf_nospine_markup, opf_nospine))].

(** The staging area: the files above and nothing else. *)
Definition fs (path : string) : option string :=
  match list_find (fun entry => entry.1 = path) table with
  | Some (_, (_, (markup, _))) => Some markup
  | None => None
  end.

(** The parser on the markup of these files. *)
Definition parse (features markup : string) : list PageElement :=
  match list_find (fun entry => entry.2.1 = markup) table with
  | Some (_, (_, (_, tree))) => tree
  | None => []
  end.

Definition manifest : gmap string string :=
  <["c1" := "ch1.xhtml"]> (<["c2" := "ch2.xhtml"]> ∅).

Definition hello_world : StringRef :=
  mkStringRef "Hello world"
    (mkTagRef "p" [Tag "p" [] [NavigableString "First"]]
       (Some (mkTagRef "div" []
          (Some (mkTagRef "body" []
             (Some (mkTagRef "html" [] (Some document_ref)))))))).

Definition hello : StringRef :=
  mkStringRef "hello"
    (mkTagRef "p" [] (Some (mkTagRef "div" [] (Some document_ref)))).

End Example.

(** The address of "world" in the second chapter. *)
Definition world_address : address :=
  address_of 1 2 "OEBPS/ch2.xhtml" Example.hello_world "world".

(** The address of "hello" in the fragment. *)
Definition hello_address : address :=
  address_of 0 1 "OEBPS/fragment.xhtml" Example.hello "hello".

(** * The rest of the pipeline

    The functions of [main.py] around the three above: the container
    resolver [find_content_opf], the descriptor parser [parse_content_opf]
    and the body of [process_epub] once the archive is extracted. *)

(** ** More of the libraries *)

(** [tag[key]] reads the attribute dictionary of a tag; [attrs] lists its
    items, [None] stands for the [KeyError] of a missing key. *)
Fixpoint attr_get (attrs : list (string * string)) (key : string) : option string :=
  match attrs with
  | [] => None
  | (k, v) :: rest => if bool_decide (k = key) then Some v else attr_get rest key
  end.

Definition getitem (e : PageElement) (key : string) : option string :=
  match e with
  | Tag _ attrs _ => attr_get attrs key
  | NavigableString _ => None
  end.

(** The tags named [name] among an element and its descendants, in document
    order: a tag comes before the tags it holds. *)
Fixpoint find_all_from (name : string) (e : PageElement) : list PageElement :=
  match e with
  | NavigableString _ => []
  | Tag n _ cs =>
      (if bool_decide (n = name) then [e] else [])
      ++ (fix children (cs : list PageElement) : list PageElement :=
            match cs with
            | [] => []
            | c :: rest => find_all_from name c ++ children rest
            end) cs
  end.

(** [soup.find_all(name)] *)
Fixpoint find_all (top : list PageElement) (name : string) : list PageElement :=
  match top with
  | [] => []
  | c :: rest => find_all_from name c ++ find_all rest name
  end.

(** ["/" in s] *)
Fixpoint contains_sep (s : string) : bool :=
  match s with
  | EmptyString => false
  | String c rest => bool_decide (c = "/"%char) || contains_sep rest
  end.

(** [p[:p.rfind("/") + 1]]: [p] up to its last separator, included. *)
Fixpoint head_to_last_sep (p : string) : string :=
  match p with
  | EmptyString => EmptyString
  | String c rest =>
      if contains_sep p then String c (head_to_last_sep rest) else EmptyString
  end.

(** [s == "/" * len(s)] *)
Fixpoint all_sep (s : string) : bool :=
  match s with
  | EmptyString => true
  | String c rest => bool_decide (c = "/"%char) && all_sep rest
  end.

(** [s.rstrip("/")] *)
Fixpoint rstrip_sep (s : string) : string :=
  match s with
  | EmptyString => EmptyString
  | String c rest =>
      match rstrip_sep rest with
      | EmptyString => if bool_decide (c = "/"%char) then EmptyString
                       else String c EmptyString
      | String d r => String c (String d r)
      end
  end.

(** [os.path.dirname(p)] of the POSIX path module *)
Definition os_path_dirname (p : string) : string :=
  let head := head_to_last_sep p in
  if str_bool head && negb (all_sep head) then rstrip_sep head else head.

(** [str(z)] for an integer *)
Definition str_int (z : Z) : string := pretty z.

(** How an f-string shows a value that may be [None]. *)
Definition format_int (o : option nat) : string :=
  match o with
  | Some n => str n
  | None => "None"
  end.

Definition format_str (o : option string) : string :=
  match o with
  | Some s => s
  | None => "None"
  end.

(** ** Exceptions of the whole pipeline *)

(** Subscripting [None] raises a [TypeError], which the three functions
    above never do. *)
Inductive raised : Type :=
| Exn (e : exn)
| TypeError.

Inductive outcome (A : Type) : Type :=
| Return (a : A)
| Raised (e : raised).
Arguments Return {A} a.
Arguments Raised {A} e.

Definition lift {A : Type} (r : result A) : outcome A :=
  match r with
  | Ok a => Return a
  | Raise e => Raised (Exn e)
  end.

Definition and_then {A B : Type} (o : outcome A) (k : A -> outcome B) : outcome B :=
  match o with
  | Return a => k a
  | Raised e => Raised e
  end.

(** ** The functions *)

(** The dictionary comprehension of [parse_content_opf]: for every item the
    key [item["id"]] is read, then the value [item["href"]] (the order of
    Python 3.8 and later), and the pair is stored, over an earlier pair of
    the same key. *)
Fixpoint build_manifest (items : list PageElement) (manifest : gmap string string)
    : result (gmap string string) :=
  match items with
  | [] => Ok manifest
  | item :: rest =>
      match getitem item "id" with
      | None => Raise (KeyError "id")
      | Some id =>
          match getitem item "href" with
          | None => Raise (KeyError "href")
          | Some href => build_manifest rest (<[id := href]> manifest)
          end
      end
  end.

(** The list comprehension of [parse_content_opf]. *)
Fixpoint build_spine (itemrefs : list PageElement) : result (list string) :=
  match itemrefs with
  | [] => Ok []
  | itemref :: rest =>
      match getitem itemref "idref" with
      | None => Raise (KeyError "idref")
      | Some idref =>
          match build_spine rest with
          | Ok spine => Ok (idref :: spine)
          | Raise e => Raise e
          end
      end
  end.

(** [print("Query not found in the spine.")] *)
Definition not_found_in_spine : string := "Query not found in the spine.".

Section Pipeline.

Variable fs : string -> option string.
Variable parse : string -> string -> list PageElement.

Definition find_content_opf (temp_dir : string) : outcome string :=
  let container_path :=
    os_path_join (os_path_join temp_dir "META-INF") "container.xml" in
  match fs container_path with
  | None => Raised (Exn (OSError container_path))
  | Some container_xml =>
      let soup := BeautifulSoup parse container_xml "xml" in
      match find soup "rootfile" with
      | None => Raised TypeError
      | Some rootfile =>
          match getitem rootfile "full-path" with
          | None => Raised (Exn (KeyError "full-path"))
          | Some content_opf_path => Return (os_path_join temp_dir content_opf_path)
          end
      end
  end.

Definition parse_content_opf (content_opf_path : string)
    : result (gmap string string * list string) :=
  match fs content_opf_path with
  | None => Raise (OSError content_opf_path)
  | Some opf_content =>
      let soup := BeautifulSoup parse opf_content "xml" in
      match build_manifest (find_all soup "item") ∅ with
      | Raise e => Raise e
      | Ok manifest =>
          match build_spine (find_all soup "itemref") with
          | Raise e => Raise e
          | Ok spine => Ok (manifest, spine)
          end
      end
  end.

(** [traverse_and_trace_query] with what it prints: the result of
    [traverse_from] and the lines written to the standard output. *)
Fixpoint traverse_from_printing (spine_idx total : nat) (files : list string)
    (query : string) : result (address * list string) :=
  match files with
  | [] => Ok (not_found, [not_found_in_spine])
  | file_path :: rest =>
      match fs file_path with
      | None => Raise (OSError file_path)
      | Some content =>
          let soup := BeautifulSoup parse content "html.parser" in
          let '(element_with_query, match_start, match_end) :=
            search_query (find_all_strings soup) query in
          match element_with_query with
          | Some element =>
              if str_bool (string_text element) then
                let '(element_path, file_index) := trace element in
                Ok (mkAddress (Some (spine_idx + 1)) (Some total) (Some file_path)
                      (Some (join "/" element_path))
                      (Some (join "/" (map str file_index)))
                      match_start match_end, [])
              else traverse_from_printing (S spine_idx) total rest query
          | None => traverse_from_printing (S spine_idx) total rest query
          end
      end
  end.

(** [if matching_file:] the value is [None] or a string. *)
Definition matching_file_bool (r : address) : bool :=
  match matching_file r with
  | Some file_path => str_bool file_path
  | None => false
  end.

(** The lines [process_epub] prints for a result. *)
Definition report (spine_xml_position : Z) (r : address) : list string :=
  if matching_file_bool r then
    ["Matching file: " +:+ format_str (matching_file r);
     "Spine index: " +:+ str_int spine_xml_position +:+ "/" +:+ format_int (spine_idx r);
     "File index: " +:+ format_str (file_index r);
     "Element path: " +:+ format_str (element_path r);
     "Match start: " +:+ str_int (start_offset r);
     "Match end: " +:+ str_int (end_offset r)]
  else ["Query not found."].

(** The body of [process_epub], from the archive extracted into [temp_dir]
    ([fs] is the staging area after [extractall]): what is printed, or the
    exception that ends the run. *)
Definition process_epub (temp_dir query : string) : outcome (list string) :=
  and_then (find_content_opf temp_dir) (fun content_opf_path =>
  and_then (lift (parse_content_opf content_opf_path)) (fun '(manifest, spine) =>
  and_then (lift (map_spine_to_files manifest spine
                    (os_path_dirname content_opf_path))) (fun spine_files =>
  and_then (lift (get_spine_xml_position fs parse content_opf_path))
    (fun '(spine_xml_position, total_xml_elements) =>
  and_then (lift (traverse_from_printing 0 (length spine_files) spine_files query))
    (fun '(r, printed) =>
  Return (printed ++ report spine_xml_position r)))))).

End Pipeline.

(** ** Complete elements of the descriptor *)

(** An item with the two attributes the manifest needs, and an itemref
    with its reference. *)
Definition item_ok (item : PageElement) : Prop :=
  is_Some (getitem item "id") ∧ is_Some (getitem item "href").

Definition itemref_ok (itemref : PageElement) : Prop :=
  is_Some (getitem itemref "idref").

(** Some item of [items] has the id [id]. *)
Definition declares (items : list PageElement) (id : string) : Prop :=
  ∃ item, item ∈ items ∧ getitem item "id" = Some id.

(** ** Positions of tags *)

(** The steps of a path read on the tree itself: for each tag on the path,
    its name and one more than the number of tags of that name among the
    nodes before it. *)
Fixpoint tree_steps (nodes : list PageElement) (path : list nat)
    : list (string * nat) :=
  match path with
  | [] => []
  | i :: rest =>
      match nodes !! i with
      | Some (Tag n _ cs) =>
          (n, length (filter (fun e => is_tag_named n e = true) (take i nodes)) + 1)
          :: tree_steps cs rest
      | _ => []
      end
  end.

(** The name and the ordinal the walk records for a tag. *)
Definition step_of (t : TagRef) : string * nat := (tag_name t, ordinal t).

(** ** A whole publication, extracted *)

Module Publication.

Definition temp_dir : string := "/tmp/epub".

Definition container_markup : string :=
  "<container><rootfiles><rootfile full-path='OEBPS/content.opf'/></rootfiles></container>".
Definition container : list PageElement :=
  [Tag "container" []
     [Tag "rootfiles" []
        [Tag "rootfile" [("full-path", "OEBPS/content.opf")] []]]].

Definition opf_markup : string :=
  "<package><metadata/><manifest><item id='c1' href='ch1.xhtml'/><item id='c2' href='ch2.xhtml'/></manifest><spine><itemref idref='c1'/><itemref idref='c2'/></spine></package>".
Definition opf : list PageElement :=
  [Tag "package" []
     [Tag "metadata" [] [];
      Tag "manifest" []
        [Tag "item" [("id", "c1"); ("href", "ch1.xhtml")] [];
         Tag "item" [("id", "c2"); ("href", "ch2.xhtml")] []];
      Tag "spine" []
        [Tag "itemref" [("idref", "c1")] [];
         Tag "itemref" [("idref", "c2")] []]]].

Definition table : list (string * (string * list PageElement)) :=
  [("/tmp/epub/META-INF/container.xml", (container_markup, container));
   ("/tmp/epub/OEBPS/content.opf", (opf_markup, opf));
   ("/tmp/epub/OEBPS/ch1.xhtml", (Example.ch1_markup, Example.ch1));
   ("/tmp/epub/OEBPS/ch2.xhtml", (Example.ch2_markup, Example.ch2))].

Definition fs (path : string) : option string :=
  match list_find (fun entry => entry.1 = path) table with
  | Some (_, (_, (markup, _))) => Some markup
  | None => None
  end.

Definition parse (features markup : string) : list PageElement :=
  match list_find (fun entry => entry.2.1 = markup) table with
  | Some (_, (_, (_, tree))) => tree
  | None => []
  end.

End Publication.

(** ** Variants of the publication *)

Module Variants.

(** The staging area of [Example] without its fragment. *)
Definition fs_truncated (path : string) : option string :=
  if bool_decide (path = "OEBPS/fragment.xhtml") then None else Example.fs path.



Definition manifest : gmap string string :=
  <["c2" := "ch2.xhtml"]> (<["c1" := "ch1.xhtml"]> ∅).

(** Two faulty packages: in [/tmp/a] the spine names [cX], which no item
    declares; in [/tmp/b] the root element is not [package]. *)
Definition container_markup : string :=
  "<container><rootfiles><rootfile full-path='content.opf'/></rootfiles></container>".
Definition container : list PageElement :=
  [Tag "container" []
     [Tag "rootfiles" [] [Tag "rootfile" [("full-path", "content.opf")] []]]].

Definition dangling_markup : string :=
  "<package><manifest><item id='c1' href='ch1.xhtml'/></manifest><spine><itemref idref='c1'/><itemref idref='cX'/></spine></package>".
Definition dangling : list PageElement :=
  [Tag "package" []
     [Tag "manifest" [] [Tag "item" [("id", "c1"); ("href", "ch1.xhtml")] []];
      Tag "spine" []
        [Tag "itemref" [("idref", "c1")] []; Tag "itemref" [("idref", "cX")] []]]].

Definition rootless_markup : string :=
  "<opf><manifest><item id='c1' href='ch1.xhtml'/></manifest><spine><itemref idref='c1'/></spine></opf>".
Definition rootless : list PageElement :=
  [Tag "opf" []
     [Tag "manifest" [] [Tag "item" [("id", "c1"); ("href", "ch1.xhtml")] []];
      Tag "spine" [] [Tag "itemref" [("idref", "c1")] []]]].

Definition table : list (string * (string * list PageElement)) :=
  [("/tmp/a/META-INF/container.xml", (container_markup, container));
   ("/tmp/a/content.opf", (dangling_markup, dangling));
   ("/tmp/b/META-INF/container.xml", (container_markup, container));
   ("/tmp/b/content.opf", (rootless_markup, rootless));
   ("/tmp/b/ch1.xhtml", (Example.ch1_markup, Example.ch1))].

Definition fs (path : string) : option string :=
  match list_find (fun entry => entry.1 = path) table with
  | Some (_, (_, (markup, _))) => Some markup
  | None => None
  end.

Definition parse (features markup : string) : list PageElement :=
  match list_find (fun entry => entry.2.1 = markup) table with
  | Some (_, (_, (_, tree))) => tree
  | None => []
  end.

End Variants.

(** * Properties *)

(** ** Strings *)

Section Strings.

Local Opaque String.prefix.

Lemma substring_length_le (s : string) (n m : nat) :
  String.length (String.substring n m s) ≤ String.length s - n.
Proof.
  revert n m; induction s as [|c s IH]; intros [|n] [|m]; simpl; try lia.
  - specialize (IH 0 m). lia.
  - apply IH.
  - apply IH.
Qed.

Lemma substring0_split (s1 s2 : string) :
  String.substring 0 (String.length s1) s2 = s1 -> ∃ post, s2 = s1 +:+ post.
Proof.
  revert s2; induction s1 as [|a s1 IH]; intros s2 H.
  - by exists s2.
  - destruct s2 as [|c s2]; simpl in H; [discriminate|].
    injection H as -> H. destruct (IH _ H) as [post ->]. by exists post.
Qed.

Lemma prefix_append (sub post : string) : String.prefix sub (sub +:+ post) = true.
Proof.
  apply prefix_correct.
  induction sub as [|c sub IH]; simpl.
  - by destruct post.
  - by rewrite IH.
Qed.

Lemma index_split (sub s : string) (m : nat) :
  String.index 0 sub s = Some m ->
  ∃ pre post, s = pre +:+ sub +:+ post ∧ String.length pre = m.
Proof.
  revert m; induction s as [|b s IH]; intros m; simpl.
  - destruct sub; [|discriminate]. intros ?; simplify_eq. by exists "", "".
  - destruct (String.prefix sub (String b s)) eqn:Hp.
    + apply prefix_correct, substring0_split in Hp as [post Hp].
      intros ?; simplify_eq. exists "", post. by rewrite Hp.
    + destruct (String.index 0 sub s) as [n|]; [|discriminate].
      intros ?; simplify_eq. destruct (IH n eq_refl) as (pre & post & -> & <-).
      by exists (String b pre), post.
Qed.

Lemma index_append (pre sub post : string) :
  is_Some (String.index 0 sub (pre +:+ sub +:+ post)).
Proof.
  induction pre as [|a pre IH]; simpl.
  - destruct (sub +:+ post) as [|b s] eqn:Hs; simpl.
    + destruct sub; [eauto|discriminate].
    + rewrite <- Hs, prefix_append. eauto.
  - destruct (String.prefix sub (String a (pre +:+ sub +:+ post))); [eauto|].
    destruct IH as [n ->]. eauto.
Qed.

Lemma length_append (s1 s2 : string) :
  String.length (s1 +:+ s2) = String.length s1 + String.length s2.
Proof. induction s1; simpl; auto. Qed.

(** [sub in s] holds exactly when [sub] is a contiguous part of [s]. *)
Lemma str_in_spec (sub s : string) :
  str_in sub s = true <-> ∃ pre post, s = pre +:+ sub +:+ post.
Proof.
  unfold str_in. split.
  - destruct (String.index 0 sub s) as [m|] eqn:Hi; [|discriminate].
    intros _. destruct (index_split _ _ _ Hi) as (pre & post & -> & _). eauto.
  - intros (pre & post & ->). by destruct (index_append pre sub post) as [n ->].
Qed.

(** [s.find(sub)] when [sub in s]: the offset of the first occurrence. *)
Lemma str_find_spec (sub s : string) :
  str_in sub s = true ->
  ∃ m : nat,
    str_find s sub = Z.of_nat m ∧
    m + String.length sub ≤ String.length s ∧
    String.substring m (String.length sub) s = sub ∧
    ∀ p, p < m -> String.substring p (String.length sub) s ≠ sub.
Proof.
  unfold str_in, str_find.
  destruct (String.index 0 sub s) as [m|] eqn:Hi; [|discriminate].
  intros _. exists m. split; [done|]. split; [|split].
  - destruct (index_split _ _ _ Hi) as (pre & post & -> & <-).
    rewrite !length_append. lia.
  - by apply index_correct1 in Hi.
  - intros p Hp. apply (index_correct2 _ _ _ _ Hi); lia.
Qed.

Lemma str_in_nonempty (sub s : string) :
  str_in sub s = true -> sub ≠ "" -> str_bool s = true.
Proof.
  intros [pre [post ->]]%str_in_spec Hne.
  destruct pre; simpl; [|done]. destruct sub; simpl; done.
Qed.

Lemma str_in_empty (s : string) : str_in "" s = true.
Proof. apply str_in_spec. by exists "", s. Qed.

Lemma str_find_empty (s : string) : str_find s "" = 0%Z.
Proof.
  unfold str_find. destruct s; simpl; [done|].
  by rewrite (proj2 (prefix_correct "" _)).
Qed.

End Strings.

(** ** Spine resolution *)

Section SpineResolver.

Implicit Types (manifest : gmap string string) (spine files : list string).

Lemma map_spine_to_files_cons manifest item_id spine base_path href files :
  manifest !! item_id = Some href ->
  map_spine_to_files manifest spine base_path = Ok files ->
  map_spine_to_files manifest (item_id :: spine) base_path
  = Ok (os_path_join base_path href :: files).
Proof. intros Hm Hr. simpl. by rewrite Hm, Hr. Qed.

Lemma map_spine_to_files_total manifest spine base_path :
  (∀ item_id, item_id ∈ spine -> is_Some (manifest !! item_id)) ->
  ∃ files, map_spine_to_files manifest spine base_path = Ok files.
Proof.
  induction spine as [|item_id spine IH]; intros Hall; [by exists []|].
  destruct (Hall item_id) as [href Hhref]; [left|].
  destruct IH as [files Hfiles]; [intros; apply Hall; by right|].
  eexists. by apply map_spine_to_files_cons.
Qed.

(** C6. The spine document list is aligned with the spine: resolution
    yields [files] exactly when [files] has one entry per spine id and the
    entry at each position is the manifest's href of the id at that
    position (a repeated id gives a repeated entry), joined to the
    directory of the package descriptor. *)
Theorem map_spine_to_files_aligned manifest spine base_path files :
  map_spine_to_files manifest spine base_path = Ok files <->
  length files = length spine ∧
  ∀ (i : nat) (item_id : string), spine !! i = Some item_id ->
    ∃ href, manifest !! item_id = Some href ∧
            files !! i = Some (os_path_join base_path href).
Proof.
  revert files; induction spine as [|item_id spine IH]; intros files; simpl.
  - split.
    + intros [= <-]. split; [done|]. intros i x Hx. by destruct i.
    + intros [Hlen _]. by destruct files.
  - destruct (manifest !! item_id) as [href|] eqn:Hhref.
    + destruct (map_spine_to_files manifest spine base_path) as [rest|e] eqn:Hrest.
      * split.
        -- intros [= <-]. destruct (proj1 (IH rest) eq_refl) as [Hlen Hall].
           split; [simpl; by rewrite Hlen|].
           intros [|i] x Hx; simpl in *; [simplify_eq; eauto|by apply Hall].
        -- intros [Hlen Hall]. destruct files as [|f files]; [done|].
           destruct (Hall 0 item_id eq_refl) as (href' & Hh & Hf).
           simpl in Hf. simplify_eq. f_equal. f_equal.
           assert (Ok rest = Ok files) as [= ->]; [|done].
           apply IH. split; [simpl in Hlen; lia|].
           intros i x Hx. apply (Hall (S i) x Hx).
      * split; [done|]. intros [Hlen Hall]. exfalso.
        destruct files as [|f files]; [done|].
        assert (Raise e = Ok files) as Hbad; [|done].
        apply IH. split; [simpl in Hlen; lia|].
        intros i x Hx. apply (Hall (S i) x Hx).
    + split; [done|]. intros [_ Hall].
      destruct (Hall 0 item_id eq_refl) as (href & Hh & _). congruence.
Qed.

Lemma map_spine_to_files_first_missing manifest spine base_path :
  (∃ x, x ∈ spine ∧ manifest !! x = None) ->
  ∃ missing pre post,
    map_spine_to_files manifest spine base_path = Raise (KeyError missing) ∧
    spine = pre ++ missing :: post ∧
    manifest !! missing = None ∧
    (∀ x, x ∈ pre -> is_Some (manifest !! x)).
Proof.
  induction spine as [|item_id spine IH]; intros (x & Hin & Hx).
  - by apply elem_of_nil in Hin.
  - simpl. destruct (manifest !! item_id) as [href|] eqn:Hhref.
    + apply elem_of_cons in Hin as [->|Hin]; [congruence|].
      destruct IH as (missing & pre & post & -> & -> & Hm & Hpre); [eauto|].
      exists missing, (item_id :: pre), post. repeat split; try done.
      intros y Hy. apply elem_of_cons in Hy as [Hy|Hy]; [subst y; eauto|by apply Hpre].
    + exists item_id, [], spine. repeat split; try done.
      intros y Hy. by apply elem_of_nil in Hy.
Qed.

(** C7. A spine that names an id absent from the manifest is not resolved:
    the lookup raises at the first such id of the spine, with that id in the
    error, and no list is returned; when [item_id] is the only absent id
    the error names [item_id]. The source raises [KeyError], which plays
    the part of the spec's [UnresolvedSpineItem]. *)
Theorem map_spine_to_files_unresolved manifest spine base_path item_id :
  item_id ∈ spine ->
  manifest !! item_id = None ->
  ∃ missing pre post,
    map_spine_to_files manifest spine base_path = Raise (KeyError missing) ∧
    spine = pre ++ missing :: post ∧
    manifest !! missing = None ∧
    (∀ x, x ∈ pre -> is_Some (manifest !! x)) ∧
    ((∀ x, x ∈ spine -> manifest !! x = None -> x = item_id) -> missing = item_id).
Proof.
  intros Hin Hnone.
  destruct (map_spine_to_files_first_missing manifest spine base_path)
    as (missing & pre & post & Hr & Hs & Hm & Hpre); [eauto|].
  exists missing, pre, post. repeat split; try done.
  intros Huniq. apply Huniq; [|done]. rewrite Hs.
  apply elem_of_app. right. left.
Qed.

End SpineResolver.

(** ** The position of the spine among the package's children *)

Section SpinePosition.

Variable fs : string -> option string.
Variable parse : string -> string -> list PageElement.

(** The enumeration stops at the first child named [spine] and reports its
    position counted from [idx]. *)
Lemma spine_position_from_found idx children total i child :
  children !! i = Some child ->
  name_of child = "spine" ->
  (∀ j c, j < i -> children !! j = Some c -> name_of c ≠ "spine") ->
  spine_position_from idx children total = ((Z.of_nat (idx + i) + 1)%Z, total).
Proof.
  revert idx i; induction children as [|c children IH]; intros idx i Hi Hname Hfirst.
  - by destruct i.
  - simpl. destruct i as [|i]; simpl in Hi.
    + simplify_eq. rewrite bool_decide_eq_true_2 by done.
      by rewrite Nat.add_0_r.
    + rewrite bool_decide_eq_false_2 by (apply (Hfirst 0 c); [lia|done]).
      rewrite (IH (S idx) i Hi Hname).
      * do 3 f_equal. lia.
      * intros j c' Hj Hc'. apply (Hfirst (S j) c'); [lia|done].
Qed.

Lemma spine_position_from_absent idx children total :
  (∀ c, c ∈ children -> name_of c ≠ "spine") ->
  spine_position_from idx children total = ((-1)%Z, total).
Proof.
  revert idx; induction children as [|c children IH]; intros idx Hall; [done|].
  simpl. rewrite bool_decide_eq_false_2 by (apply Hall; left).
  apply IH. intros c' Hc'. apply Hall. by right.
Qed.

(** What [find] returns is a tag of the name asked for. *)
Lemma find_from_named name e r :
  find_from name e = Some r -> ∃ attrs contents, r = Tag name attrs contents.
Proof.
  revert r; induction e as [s|n a cs IH] using PageElement_ind'; intros r; [done|].
  simpl. case_bool_decide as Hn.
  - intros [= <-]. subst n. eauto.
  - induction IH as [|c cs Hc _ IHcs]; [done|].
    destruct (find_from name c) as [r'|] eqn:Hr'; [|done].
    intros [= <-]. by apply Hc.
Qed.

Lemma find_named top name r :
  find top name = Some r -> ∃ attrs contents, r = Tag name attrs contents.
Proof.
  induction top as [|c top IH]; simpl; [done|].
  destruct (find_from name c) as [r'|] eqn:Hr'; [|done].
  intros [= <-]. by eapply find_from_named.
Qed.

(** C5. For a package descriptor that can be read and has a [package]
    element, [get_spine_xml_position] goes through the direct child elements
    of that element (the tags among its contents, in document order) and
    returns the 1-based ordinal of the first one named [spine] with the
    number of direct child elements; without such a child it returns
    ordinal -1 with the same true count, as a value, not as an error. *)
Theorem get_spine_xml_position_spec content_opf_path opf_content package :
  fs content_opf_path = Some opf_content ->
  find (BeautifulSoup parse opf_content "xml") "package" = Some package ->
  ∃ attrs contents children,
    package = Tag "package" attrs contents ∧
    children = filter (fun c => is_tag c = true) contents ∧
    (∀ i child,
        children !! i = Some child ->
        name_of child = "spine" ->
        (∀ j c, j < i -> children !! j = Some c -> name_of c ≠ "spine") ->
        get_spine_xml_position fs parse content_opf_path
        = Ok ((Z.of_nat i + 1)%Z, length children)) ∧
    ((∀ c, c ∈ children -> name_of c ≠ "spine") ->
        get_spine_xml_position fs parse content_opf_path
        = Ok ((-1)%Z, length children)).
Proof.
  intros Hfs Hfind. destruct (find_named _ _ _ Hfind) as (attrs & contents & ->).
  exists attrs, contents, (find_all_children (Tag "package" attrs contents)).
  split; [done|]. split; [done|].
  unfold get_spine_xml_position. rewrite Hfs, Hfind. split.
  - intros i child Hi Hname Hfirst.
    by rewrite (spine_position_from_found 0 _ _ i child).
  - intros Habsent. by rewrite spine_position_from_absent.
Qed.

End SpinePosition.

(** ** The parsed tree and the ancestor walk *)

Section Tree.

Lemma strings_of_tag parent before n a cs :
  strings_of parent before (Tag n a cs)
  = strings_in (mkTagRef n before (Some parent)) [] cs.
Proof.
  simpl. generalize (@nil PageElement) as prev.
  induction cs as [|c cs IH]; intros prev; [done|].
  simpl. by rewrite IH.
Qed.

Lemma trace_loop_step (t : TagRef) element_path file_index :
  trace_loop t element_path file_index
  = let element_path := element_path ++ [label t] in
    let file_index := if decide (not_html t) then ordinal t :: file_index
                      else file_index in
    match tag_parent t with
    | Some parent => trace_loop parent element_path file_index
    | None => (element_path, file_index)
    end.
Proof.
  destruct t as [n p [q|]]; simpl; unfold not_html; simpl;
    by case_bool_decide; case_decide.
Qed.

(** What the loop computes, for any value of its two accumulators. *)
Lemma trace_loop_spec current element_path file_index :
  trace_loop current element_path file_index
  = (element_path ++ map label (ancestors current),
     reverse (map ordinal (filter not_html (ancestors current))) ++ file_index).
Proof.
  revert element_path file_index.
  induction current as [n p|n p q IH] using TagRef_ind'; intros ep fi;
    rewrite trace_loop_step; cbn [tag_parent ancestors]; [|rewrite IH];
    cbn [map]; rewrite filter_cons; destruct (decide (not_html _));
    cbn [map]; rewrite ?reverse_cons, ?reverse_nil, <- ?app_assoc; done.
Qed.

(** C4 and C3 rest on this: the two lists of [trace], read from the root
    down to the parent of the string. *)
Lemma trace_spec element :
  trace element
  = (map label (reverse (ancestors (string_parent element))),
     map ordinal (filter not_html (reverse (ancestors (string_parent element))))).
Proof.
  unfold trace. rewrite trace_loop_spec. simpl.
  rewrite app_nil_r, filter_reverse. f_equal; symmetry; apply fmap_reverse.
Qed.

Lemma ancestors_unfold (t : TagRef) :
  ancestors t
  = t :: match tag_parent t with
         | Some parent => ancestors parent
         | None => []
         end.
Proof. by destruct t as [n p [q|]]. Qed.

(** The tags above a string of a subtree end with the tags above the
    subtree: the walk from any string of a document reaches its root. *)
Lemma strings_of_ancestors e :
  ∀ parent before r,
    r ∈ strings_of parent before e ->
    ∃ chain, ancestors (string_parent r) = chain ++ ancestors parent.
Proof.
  induction e as [s|n a cs IH] using PageElement_ind'; intros parent before r.
  - intros Hr. apply list_elem_of_singleton in Hr as ->. by exists [].
  - rewrite strings_of_tag.
    set (me := mkTagRef n before (Some parent)). intros Hr.
    assert (∀ prev, r ∈ strings_in me prev cs ->
              ∃ chain, ancestors (string_parent r) = chain ++ ancestors me) as Hin.
    { clear Hr. induction IH as [|c cs Hc _ IHcs]; intros prev Hin; simpl in Hin.
      - by apply elem_of_nil in Hin.
      - apply elem_of_app in Hin as [Hin|Hin]; eauto. }
    destruct (Hin [] Hr) as [chain Hchain].
    exists (chain ++ [me]). rewrite Hchain. simpl. by rewrite <- app_assoc.
Qed.

Lemma strings_in_ancestors cs :
  ∀ me prev r,
    r ∈ strings_in me prev cs ->
    ∃ chain, ancestors (string_parent r) = chain ++ ancestors me.
Proof.
  induction cs as [|c cs IH]; intros me prev r Hr; simpl in Hr.
  - by apply elem_of_nil in Hr.
  - apply elem_of_app in Hr as [Hr|Hr]; eauto using strings_of_ancestors.
Qed.

(** Read from the root, the tags above a string of a document start with
    the root object of the parser. *)
Lemma find_all_strings_root top r :
  r ∈ find_all_strings top ->
  ∃ chain, reverse (ancestors (string_parent r)) = document_ref :: chain.
Proof.
  intros [_ [chain Hchain]%strings_in_ancestors]%list_elem_of_filter.
  exists (reverse chain). rewrite Hchain. simpl.
  by rewrite reverse_app.
Qed.

(** The strings of the scan are true: [if element_with_query] never fails
    on a string the search has found. *)
Lemma find_all_strings_bool top r :
  r ∈ find_all_strings top -> str_bool (string_text r) = true.
Proof. by intros [? _]%list_elem_of_filter. Qed.

Lemma filter_html_length (l : list TagRef) :
  length l
  = length (filter not_html l) + length (filter (fun t => tag_name t = "html") l).
Proof.
  induction l as [|t l IH]; [done|].
  rewrite !filter_cons. unfold not_html at 1.
  destruct (decide (tag_name t ≠ "html")), (decide (tag_name t = "html"));
    simpl; try done; lia.
Qed.

(** *** Strings and positions in the tree *)

Lemma string_paths_of_tag n a cs :
  string_paths_of (Tag n a cs) = string_paths_in 0 cs.
Proof.
  simpl. generalize 0 as i.
  induction cs as [|c cs IH]; intros i; [done|].
  simpl. by rewrite IH.
Qed.

Lemma strings_in_at_paths cs :
  Forall strings_at_paths cs ->
  ∀ me before,
    Some <$> strings_in me (reverse before) cs
    = string_at me (before ++ cs) <$> string_paths_in (length before) cs.
Proof.
  induction 1 as [|c cs Hc _ IH]; intros me before; [done|].
  simpl. rewrite !fmap_app. f_equal.
  - rewrite (Hc me before cs). by rewrite <- list_fmap_compose.
  - specialize (IH me (before ++ [c])).
    rewrite reverse_app, length_app, <- app_assoc in IH. simpl in IH.
    by rewrite Nat.add_1_r in IH.
Qed.

Lemma strings_of_at_paths e : strings_at_paths e.
Proof.
  induction e as [s|n a cs IH] using PageElement_ind'; intros me before after.
  - simpl. by rewrite list_lookup_middle.
  - rewrite strings_of_tag, string_paths_of_tag.
    pose proof (strings_in_at_paths cs IH
                  (mkTagRef n (reverse before) (Some me)) []) as Hin.
    rewrite reverse_nil in Hin. simpl in Hin. rewrite Hin.
    apply list_fmap_ext. intros _ p _.
    simpl. rewrite list_lookup_middle by done.
    by rewrite take_app_length.
Qed.

(** The strings below a root are the strings at the string paths of the
    tree, one for one and in the same order. *)
Lemma strings_in_paths me top :
  Some <$> strings_in me [] top = string_at me top <$> string_paths_in 0 top.
Proof.
  assert (Forall strings_at_paths top) as Hall.
  { apply Forall_forall. intros e _. apply strings_of_at_paths. }
  apply (strings_in_at_paths top Hall me []).
Qed.

(** The string paths of a tree are in document order. *)
Lemma path_lt_cons_sorted i (paths : list (list nat)) :
  StronglySorted path_lt paths ->
  StronglySorted path_lt (map (cons i) paths).
Proof.
  induction 1 as [|p paths _ IH Hall]; simpl; constructor; [done|].
  apply Forall_fmap. eapply Forall_impl; [exact Hall|].
  intros q Hq. by apply path_lt_tail.
Qed.

Lemma string_paths_in_head i cs p :
  p ∈ string_paths_in i cs -> ∃ j q, p = j :: q ∧ i ≤ j.
Proof.
  revert i; induction cs as [|c cs IH]; intros i Hp; simpl in Hp.
  - by apply elem_of_nil in Hp.
  - apply elem_of_app in Hp as [Hp|Hp].
    + apply list_elem_of_fmap in Hp as (q & -> & _). by exists i, q.
    + destruct (IH _ Hp) as (j & q & -> & Hj). exists j, q. split; [done|lia].
Qed.

Lemma string_paths_in_sorted cs :
  Forall (fun c => StronglySorted path_lt (string_paths_of c)) cs ->
  ∀ i, StronglySorted path_lt (string_paths_in i cs).
Proof.
  induction 1 as [|c cs Hc _ IH]; intros i; simpl; [constructor|].
  apply StronglySorted_app. split; [|split].
  - intros p1 p2 Hp1 Hp2.
    apply list_elem_of_fmap in Hp1 as (q1 & -> & _).
    apply string_paths_in_head in Hp2 as (j & q2 & -> & Hj).
    apply path_lt_head. lia.
  - by apply path_lt_cons_sorted.
  - apply IH.
Qed.

Lemma string_paths_of_sorted e : StronglySorted path_lt (string_paths_of e).
Proof.
  induction e as [s|n a cs IH] using PageElement_ind'.
  - repeat constructor.
  - rewrite string_paths_of_tag. by apply string_paths_in_sorted.
Qed.

Lemma string_paths_sorted top : StronglySorted path_lt (string_paths_in 0 top).
Proof.
  apply string_paths_in_sorted, Forall_forall.
  intros e _. apply string_paths_of_sorted.
Qed.

(** No string of the tree is missed: a path that leads to a string is one of
    the string paths, and each string path leads to a string. *)
Lemma string_paths_in_lookup nodes i c q k :
  nodes !! i = Some c ->
  q ∈ string_paths_of c ->
  (k + i :: q) ∈ string_paths_in k nodes.
Proof.
  revert i k; induction nodes as [|d nodes IH]; intros i k Hi Hq; [done|].
  simpl. apply elem_of_app. destruct i as [|i]; simpl in Hi.
  - left. injection Hi as ->. rewrite Nat.add_0_r.
    apply list_elem_of_fmap. by exists q.
  - right. replace (k + S i) with (S k + i) by lia. by apply IH.
Qed.

Lemma string_at_path p :
  ∀ me nodes r, string_at me nodes p = Some r -> p ∈ string_paths_in 0 nodes.
Proof.
  induction p as [|i rest IH]; intros me nodes r; simpl; [done|].
  destruct (nodes !! i) as [[n a cs|s]|] eqn:Hi; [| |done]; intros Hr.
  - apply (string_paths_in_lookup nodes i (Tag n a cs) rest 0 Hi).
    rewrite string_paths_of_tag. by eapply IH.
  - destruct rest; [|done].
    apply (string_paths_in_lookup nodes i (NavigableString s) [] 0 Hi). left.
Qed.

Lemma string_path_at me top p :
  p ∈ string_paths_in 0 top ->
  ∃ r, string_at me top p = Some r ∧ r ∈ strings_in me [] top.
Proof.
  intros Hp. apply list_elem_of_lookup in Hp as [k Hk].
  pose proof (f_equal (fun l => l !! k) (strings_in_paths me top)) as Heq.
  simpl in Heq. rewrite !list_lookup_fmap, Hk in Heq. simpl in Heq.
  destruct (strings_in me [] top !! k) as [r|] eqn:Hr; [|done].
  exists r. split; [by injection Heq|].
  by apply list_elem_of_lookup_2 in Hr.
Qed.

(** Document order, in one statement: the strings the scan goes through are
    the strings at the string paths of the tree ([string_at] gives each its
    tags), the paths are all the paths that lead to a string, and they come
    in increasing order, that is depth first and in the order of the
    markup; [find_all_strings] keeps the non-empty ones, in that order. *)
Lemma find_all_strings_document_order top :
  ∃ paths,
    StronglySorted path_lt paths ∧
    (∀ p, p ∈ paths <-> is_Some (string_at document_ref top p)) ∧
    Some <$> strings_in document_ref [] top = string_at document_ref top <$> paths ∧
    find_all_strings top
    = filter (fun element => str_bool (string_text element) = true)
        (strings_in document_ref [] top).
Proof.
  exists (string_paths_in 0 top).
  split; [apply string_paths_sorted|]. split; [|split; [apply strings_in_paths|done]].
  intros p. split.
  - intros Hp. destruct (string_path_at document_ref top p Hp) as (r & -> & _). eauto.
  - intros [r Hr]. by eapply string_at_path.
Qed.

End Tree.

(** ** The text locator *)

Lemma address_of_first_occurrence spine_idx total file_path element query :
  str_in query (string_text element) = true ->
  first_occurrence (address_of spine_idx total file_path element query)
    (string_text element) query.
Proof.
  intros Hin. destruct (str_find_spec _ _ Hin) as (m & Hm & Hle & Hsub & Hfirst).
  unfold first_occurrence, address_of, slice, len; simpl. rewrite Hm.
  split; [lia|]. split; [done|]. split; [lia|]. split.
  - replace (Z.of_nat m + Z.of_nat (String.length query) - Z.of_nat m)%Z
      with (Z.of_nat (String.length query)) by lia.
    by rewrite !Nat2Z.id.
  - intros k Hk.
    replace (k + Z.of_nat (String.length query) - k)%Z
      with (Z.of_nat (String.length query)) by lia.
    rewrite Nat2Z.id. apply Hfirst. lia.
Qed.

Section Locator.

Variable fs : string -> option string.
Variable parse : string -> string -> list PageElement.

Lemma search_query_none elements query :
  (∀ e, e ∈ elements -> str_in query (string_text e) = false) ->
  search_query elements query = (None, (-1)%Z, (-1)%Z).
Proof.
  induction elements as [|e elements IH]; intros Hall; [done|].
  simpl. rewrite (Hall e) by left. apply IH. intros; apply Hall. by right.
Qed.

Lemma search_query_first elements query element :
  first_match elements query element ->
  search_query elements query
  = (Some element, str_find (string_text element) query,
     (str_find (string_text element) query + len query)%Z).
Proof.
  intros (before & after & -> & Hbefore & Hin).
  induction before as [|e before IH]; simpl.
  - by rewrite Hin.
  - rewrite (Hbefore e) by left. apply IH. intros; apply Hbefore. by right.
Qed.

Lemma search_query_inv elements query element match_start match_end :
  search_query elements query = (Some element, match_start, match_end) ->
  first_match elements query element ∧
  match_start = str_find (string_text element) query ∧
  match_end = (match_start + len query)%Z.
Proof.
  induction elements as [|e elements IH]; simpl; [done|].
  destruct (str_in query (string_text e)) eqn:Hin.
  - intros ?; simplify_eq. split; [|done].
    exists [], elements. split; [done|]. split; [|done].
    intros e' He'. by apply elem_of_nil in He'.
  - intros Hs. destruct (IH Hs) as ((before & after & -> & Hb & Hm) & -> & ->).
    split; [|done]. exists (e :: before), after. split; [done|]. split; [|done].
    intros e' He'. apply elem_of_cons in He' as [->|He']; [done|by apply Hb].
Qed.

Lemma traverse_from_skip spine_idx total file_path rest query :
  no_match_in fs parse file_path query ->
  traverse_from fs parse spine_idx total (file_path :: rest) query
  = traverse_from fs parse (S spine_idx) total rest query.
Proof.
  intros (elements & Hfile & Hnone). unfold strings_of_file in Hfile. simpl.
  destruct (fs file_path) as [content|]; [|done]. simplify_eq.
  by rewrite search_query_none.
Qed.

Lemma traverse_from_found spine_idx total file_path rest query elements element :
  strings_of_file fs parse file_path = Some elements ->
  first_match elements query element ->
  str_bool (string_text element) = true ->
  traverse_from fs parse spine_idx total (file_path :: rest) query
  = Ok (address_of spine_idx total file_path element query).
Proof.
  intros Hfile Hfirst Hbool. unfold strings_of_file in Hfile. simpl.
  destruct (fs file_path) as [content|]; [|done]. simplify_eq.
  rewrite (search_query_first _ _ _ Hfirst), Hbool.
  unfold address_of. by destruct (trace element).
Qed.

Lemma traverse_from_first_match spine_idx total pre file_path post query
    elements element :
  (∀ f, f ∈ pre -> no_match_in fs parse f query) ->
  strings_of_file fs parse file_path = Some elements ->
  first_match elements query element ->
  str_bool (string_text element) = true ->
  traverse_from fs parse spine_idx total (pre ++ file_path :: post) query
  = Ok (address_of (spine_idx + length pre) total file_path element query).
Proof.
  revert spine_idx; induction pre as [|f pre IH]; intros spine_idx Hpre Hfile Hm Hb.
  - simpl. rewrite Nat.add_0_r. by eapply traverse_from_found.
  - simpl app. rewrite traverse_from_skip by (apply Hpre; left).
    rewrite IH; try done.
    + do 2 f_equal. simpl. lia.
    + intros; apply Hpre. by right.
Qed.

Lemma traverse_from_none spine_idx total files query :
  (∀ f, f ∈ files -> no_match_in fs parse f query) ->
  traverse_from fs parse spine_idx total files query = Ok not_found.
Proof.
  revert spine_idx; induction files as [|f files IH]; intros spine_idx Hall; [done|].
  rewrite traverse_from_skip by (apply Hall; left).
  apply IH. intros; apply Hall. by right.
Qed.

Lemma traverse_from_inv spine_idx total files query r :
  traverse_from fs parse spine_idx total files query = Ok r ->
  matching_file r ≠ None ->
  ∃ i file_path elements element,
    files !! i = Some file_path ∧
    strings_of_file fs parse file_path = Some elements ∧
    first_match elements query element ∧
    r = address_of (spine_idx + i) total file_path element query.
Proof.
  revert spine_idx; induction files as [|f files IH]; intros spine_idx; simpl.
  - intros ?; simplify_eq. done.
  - destruct (fs f) as [content|] eqn:Hfs; [|done].
    destruct (search_query _ query) as [[[element|] ms] me] eqn:Hs.
    + destruct (str_bool (string_text element)).
      * destruct (search_query_inv _ _ _ _ _ Hs) as (Hfirst & -> & ->).
        intros Hr _. eexists 0, f, _, element. simpl.
        unfold strings_of_file. rewrite Hfs. repeat split; try done.
        rewrite Nat.add_0_r. unfold address_of.
        destruct (trace element). by simplify_eq.
      * intros Hr Hm. destruct (IH _ Hr Hm) as (i & fp & els & el & ? & ? & ? & ->).
        exists (S i), fp, els, el. repeat split; try done. f_equal. lia.
    + intros Hr Hm. destruct (IH _ Hr Hm) as (i & fp & els & el & ? & ? & ? & ->).
      exists (S i), fp, els, el. repeat split; try done. f_equal. lia.
Qed.

Lemma traverse_and_trace_query_inv spine_files query r :
  traverse_and_trace_query fs parse spine_files query = Ok r ->
  matching_file r ≠ None ->
  ∃ element, locates fs parse spine_files query r element.
Proof.
  intros Hr Hm. destruct (traverse_from_inv _ _ _ _ _ Hr Hm)
    as (i & fp & els & el & ? & ? & ? & ->).
  exists el, i, fp, els. done.
Qed.

(** C1. For a non-empty query, the scan goes through the documents in
    spine order and through the strings of each document in document
    order, and stops at the first string that contains the query: when
    the documents before [file_path] are read without a match and
    [element] is the first string of [file_path] that contains the query,
    the result is the address of [element] in [file_path], at the 1-based
    position of [file_path], and its offsets delimit the first occurrence
    of the query in the text of [element]. In particular (second part), so
    it is when the query occurs in exactly one string of exactly one
    document of the spine. *)
Theorem locate_first_match spine_files query :
  query ≠ "" ->
  (∀ pre file_path post elements element,
      spine_files = pre ++ file_path :: post ->
      (∀ f, f ∈ pre -> no_match_in fs parse f query) ->
      strings_of_file fs parse file_path = Some elements ->
      first_match elements query element ->
      ∃ r, traverse_and_trace_query fs parse spine_files query = Ok r ∧
           r = address_of (length pre) (length spine_files) file_path element query ∧
           spine_idx r = Some (length pre + 1) ∧
           matching_file r = Some file_path ∧
           first_occurrence r (string_text element) query) ∧
  (∀ i k file_path elements element,
      spine_files !! i = Some file_path ->
      strings_of_file fs parse file_path = Some elements ->
      elements !! k = Some element ->
      str_in query (string_text element) = true ->
      (∀ j f, j < i -> spine_files !! j = Some f -> is_Some (strings_of_file fs parse f)) ->
      (∀ j f els k' e,
          spine_files !! j = Some f -> strings_of_file fs parse f = Some els ->
          els !! k' = Some e -> str_in query (string_text e) = true ->
          j = i ∧ k' = k) ->
      ∃ r, traverse_and_trace_query fs parse spine_files query = Ok r ∧
           r = address_of i (length spine_files) file_path element query ∧
           spine_idx r = Some (i + 1) ∧
           matching_file r = Some file_path ∧
           first_occurrence r (string_text element) query).
Proof.
  intros Hquery.
  assert (∀ pre file_path post elements element,
      spine_files = pre ++ file_path :: post ->
      (∀ f, f ∈ pre -> no_match_in fs parse f query) ->
      strings_of_file fs parse file_path = Some elements ->
      first_match elements query element ->
      ∃ r, traverse_and_trace_query fs parse spine_files query = Ok r ∧
           r = address_of (length pre) (length spine_files) file_path element query ∧
           spine_idx r = Some (length pre + 1) ∧
           matching_file r = Some file_path ∧
           first_occurrence r (string_text element) query) as Hfirst.
  { intros pre file_path post elements element -> Hpre Hfile Hmatch.
    assert (str_in query (string_text element) = true) as Hin
      by (by destruct Hmatch as (? & ? & _ & _ & ?)).
    exists (address_of (length pre) (length (pre ++ file_path :: post))
              file_path element query).
    split; [|split; [done|split; [done|split; [done|]]]].
    - unfold traverse_and_trace_query.
      by rewrite (traverse_from_first_match _ _ _ _ _ _ elements element)
        by eauto using str_in_nonempty.
    - by apply address_of_first_occurrence. }
  split; [exact Hfirst|].
  intros i k file_path elements element Hi Hfile Hk Hin Hread Huniq.
  destruct (Hfirst (take i spine_files) file_path (drop (S i) spine_files)
              elements element) as (r & Hr & -> & Hidx & ?).
  - by rewrite take_drop_middle.
  - intros f Hf. apply list_elem_of_lookup in Hf as [j Hj].
    apply lookup_take_Some in Hj as [Hj Hlt].
    destruct (Hread j f Hlt Hj) as [els Hels].
    exists els. split; [done|]. intros e He.
    apply list_elem_of_lookup in He as [k' Hk'].
    destruct (str_in query (string_text e)) eqn:He; [|done].
    destruct (Huniq j f els k' e Hj Hels Hk' He) as [-> _]. lia.
  - done.
  - exists (take k elements), (drop (S k) elements).
    split; [by rewrite take_drop_middle|]. split; [|done].
    intros e He. apply list_elem_of_lookup in He as [k' Hk'].
    apply lookup_take_Some in Hk' as [Hk' Hlt].
    destruct (str_in query (string_text e)) eqn:He; [|done].
    destruct (Huniq i file_path elements k' e Hi Hfile Hk' He) as [_ ->]. lia.
  - assert (length (take i spine_files) = i) as Hlen.
    { apply length_take_le. apply lookup_lt_Some in Hi. lia. }
    rewrite Hlen in *. eauto.
Qed.

(** C8. When every document of the spine is read and the query occurs in
    none of their strings, the locate operation returns the not-found
    tuple as a value; nothing is raised. (The query need not even be
    non-empty for this.) *)
Theorem locate_not_found spine_files query :
  (∀ f, f ∈ spine_files -> no_match_in fs parse f query) ->
  traverse_and_trace_query fs parse spine_files query = Ok not_found.
Proof. apply traverse_from_none. Qed.

(** C9. With the empty query, when the first document of the spine is read
    and the scan finds at least one string in it, the locate operation
    returns a match, not the not-found tuple: the match is on the first
    string of the first document, with both offsets 0, so that the result
    does not satisfy [match_start < match_end]. *)
Theorem locate_empty_query file_path rest element others :
  strings_of_file fs parse file_path = Some (element :: others) ->
  ∃ r, traverse_and_trace_query fs parse (file_path :: rest) "" = Ok r ∧
       r ≠ not_found ∧
       r = address_of 0 (S (length rest)) file_path element "" ∧
       spine_idx r = Some 1 ∧
       matching_file r = Some file_path ∧
       start_offset r = 0%Z ∧ end_offset r = 0%Z ∧
       ¬ (start_offset r < end_offset r)%Z.
Proof.
  intros Hfile.
  exists (address_of 0 (S (length rest)) file_path element "").
  split; [|split; [done|split; [done|]]].
  - unfold traverse_and_trace_query. simpl length.
    eapply traverse_from_found; [done| |].
    + exists [], others. split; [done|]. split; [|apply str_in_empty].
      intros e He. by apply elem_of_nil in He.
    + unfold strings_of_file in Hfile.
      destruct (fs file_path) as [content|]; [|done].
      apply (find_all_strings_bool (BeautifulSoup parse content "html.parser")).
      injection Hfile as ->. left.
  - unfold address_of; simpl. rewrite str_find_empty.
    change (len "") with 0%Z. repeat split; lia.
Qed.

Lemma locates_in_document spine_files query r element :
  locates fs parse spine_files query r element ->
  ∃ top, element ∈ find_all_strings top.
Proof.
  intros (i & file_path & elements & _ & Hfile & (before & after & Hel & _) & _).
  unfold strings_of_file in Hfile. destruct (fs file_path) as [content|]; [|done].
  exists (BeautifulSoup parse content "html.parser").
  injection Hfile as ->. rewrite Hel. apply elem_of_app. right. left.
Qed.

(** C4. The element path of a successful result is built from the tags
    above the matched string, from its parent up to the tag without
    parent ([ancestors]): each gives the step [name[ordinal]], where the
    ordinal is 1 plus the number of its previous siblings that are tags of
    the same name, and the steps are reversed to read from the root down
    to the parent. *)
Theorem element_path_walk spine_files query r :
  traverse_and_trace_query fs parse spine_files query = Ok r ->
  matching_file r ≠ None ->
  ∃ element,
    locates fs parse spine_files query r element ∧
    element_path r
    = Some (join "/" (reverse (map
        (fun t =>
           tag_name t +:+ "[" +:+
           str (1 + length (filter (fun e => is_tag_named (tag_name t) e = true)
                              (previous_siblings t))) +:+ "]")
        (ancestors (string_parent element))))).
Proof.
  intros Hr Hm. destruct (traverse_and_trace_query_inv _ _ _ Hr Hm) as [element Hloc].
  exists element. split; [done|].
  destruct Hloc as (i & file_path & elements & _ & _ & _ & ->).
  unfold address_of; simpl. rewrite trace_spec; simpl.
  do 2 f_equal. rewrite <- fmap_reverse. apply map_ext. intros t.
  unfold label, step_label, ordinal. by rewrite Nat.add_1_r.
Qed.

(** C2, amended. In a successful result the element path has as many
    steps as the index path plus one for every tag named [html] above the
    matched string; the two lengths differ by one exactly when one such tag
    is above the string. *)
Theorem path_lengths spine_files query r :
  traverse_and_trace_query fs parse spine_files query = Ok r ->
  matching_file r ≠ None ->
  ∃ element element_path_list file_index_list,
    locates fs parse spine_files query r element ∧
    trace element = (element_path_list, file_index_list) ∧
    element_path r = Some (join "/" element_path_list) ∧
    file_index r = Some (join "/" (map str file_index_list)) ∧
    length element_path_list
    = length file_index_list
      + length (filter (fun t => tag_name t = "html")
                  (ancestors (string_parent element))) ∧
    (length element_path_list = length file_index_list + 1 <->
     length (filter (fun t => tag_name t = "html")
               (ancestors (string_parent element))) = 1).
Proof.
  intros Hr Hm. destruct (traverse_and_trace_query_inv _ _ _ Hr Hm) as [element Hloc].
  exists element, (trace element).1, (trace element).2.
  split; [done|]. split; [by destruct (trace element)|].
  destruct Hloc as (i & file_path & elements & _ & _ & _ & ->).
  split; [done|]. split; [done|].
  rewrite trace_spec; simpl.
  rewrite !length_map, filter_reverse, !length_reverse.
  pose proof (filter_html_length (ancestors (string_parent element))).
  split; lia.
Qed.

(** C3, amended. In a successful result the index path goes through the
    same tags as the element path, from the root down to the parent of the
    matched string, and keeps their ordinals without the names, leaving out
    exactly the tags whose name is the literal [html]. *)
Theorem index_path_walk spine_files query r :
  traverse_and_trace_query fs parse spine_files query = Ok r ->
  matching_file r ≠ None ->
  ∃ element chain,
    locates fs parse spine_files query r element ∧
    chain = reverse (ancestors (string_parent element)) ∧
    element_path r = Some (join "/" (map label chain)) ∧
    file_index r
    = Some (join "/" (map str
        (map ordinal (filter (fun t => tag_name t ≠ "html") chain)))).
Proof.
  intros Hr Hm. destruct (traverse_and_trace_query_inv _ _ _ Hr Hm) as [element Hloc].
  exists element, (reverse (ancestors (string_parent element))).
  split; [done|]. split; [done|].
  destruct Hloc as (i & file_path & elements & _ & _ & _ & ->).
  unfold address_of; simpl. by rewrite trace_spec.
Qed.

(** C10. In a successful result the walk ends at the root object of the
    parser, the tag named [[document]] with ordinal 1: it is the first step
    of the element path, and also the first entry of the index path, since
    only the tags named [html], a literal, are left out of the index. *)
Theorem document_root_in_paths spine_files query r :
  traverse_and_trace_query fs parse spine_files query = Ok r ->
  matching_file r ≠ None ->
  ∃ element chain,
    locates fs parse spine_files query r element ∧
    reverse (ancestors (string_parent element)) = document_ref :: chain ∧
    element_path r = Some (join "/" ("[document][1]" :: map label chain)) ∧
    file_index r
    = Some (join "/" (map str
        (1 :: map ordinal (filter (fun t => tag_name t ≠ "html") chain)))).
Proof.
  intros Hr Hm. destruct (traverse_and_trace_query_inv _ _ _ Hr Hm) as [element Hloc].
  destruct (locates_in_document _ _ _ _ Hloc) as [top Htop].
  destruct (find_all_strings_root _ _ Htop) as [chain Hchain].
  exists element, chain. split; [done|]. split; [done|].
  destruct Hloc as (i & file_path & elements & _ & _ & _ & ->).
  unfold address_of; simpl. by rewrite trace_spec, Hchain.
Qed.

End Locator.

(** ** The properties on the small publication *)

(** A computable form of [no_match_in], for concrete documents. *)
Lemma no_match_in_check fs parse file_path query elements :
  strings_of_file fs parse file_path = Some elements ->
  forallb (fun e => negb (str_in query (string_text e))) elements = true ->
  no_match_in fs parse file_path query.
Proof.
  intros Hfile Hall. exists elements. split; [done|].
  intros e He. apply list_elem_of_In in He.
  rewrite forallb_forall in Hall. specialize (Hall e He).
  by destruct (str_in query (string_text e)).
Qed.

(** Spec scenario 3: the query is in the second document only; both
    parts of the theorem apply. *)
Lemma locate_first_match_witness :
  (∃ r,
    traverse_and_trace_query Example.fs Example.parse
      ["OEBPS/ch1.xhtml"; "OEBPS/ch2.xhtml"] "world" = Ok r ∧
    r = address_of (length ["OEBPS/ch1.xhtml"]) 2 "OEBPS/ch2.xhtml"
          Example.hello_world "world" ∧
    spine_idx r = Some 2 ∧
    matching_file r = Some "OEBPS/ch2.xhtml" ∧
    first_occurrence r "Hello world" "world") ∧
  (∃ r,
    traverse_and_trace_query Example.fs Example.parse
      ["OEBPS/ch1.xhtml"; "OEBPS/ch2.xhtml"] "world" = Ok r ∧
    r = address_of 1 2 "OEBPS/ch2.xhtml" Example.hello_world "world" ∧
    spine_idx r = Some 2 ∧
    matching_file r = Some "OEBPS/ch2.xhtml" ∧
    first_occurrence r "Hello world" "world").
Proof.
  assert ("world" ≠ "") as Hquery by discriminate.
  destruct (locate_first_match Example.fs Example.parse
              ["OEBPS/ch1.xhtml"; "OEBPS/ch2.xhtml"] "world" Hquery)
    as [Hfirst Hunique].
  split.
  - apply (Hfirst ["OEBPS/ch1.xhtml"] "OEBPS/ch2.xhtml" []
             (find_all_strings Example.ch2) Example.hello_world).
    + reflexivity.
    + intros f Hf. apply list_elem_of_singleton in Hf. subst f.
      apply (no_match_in_check _ _ _ _ (find_all_strings Example.ch1)); reflexivity.
    + reflexivity.
    + exists [mkStringRef "First" (mkTagRef "p" []
                (Some (mkTagRef "div" [] (Some (mkTagRef "body" []
                   (Some (mkTagRef "html" [] (Some document_ref)))))))) ], [].
      split; [reflexivity|]. split; [|reflexivity].
      intros e He. apply list_elem_of_singleton in He. subst e. reflexivity.
  - apply (Hunique 1 1 "OEBPS/ch2.xhtml"
             (find_all_strings Example.ch2) Example.hello_world).
    + reflexivity.
    + reflexivity.
    + reflexivity.
    + reflexivity.
    + intros [|j] f Hj Hf; [|lia]. injection Hf as <-. by eexists.
    + intros j f els k' e Hj Hf Hk He.
      destruct j as [|[|j]]; simpl in Hj; [| |done]; injection Hj as <-;
        injection Hf as <-;
        (destruct k' as [|[|k']]; simpl in Hk; [| |done]);
        try (injection Hk as <-; vm_compute in He; discriminate);
        try done.
Defined.

(** Spec scenario 1: the spine is the third of three children; and a
    package without spine. *)
Lemma get_spine_xml_position_witness :
  get_spine_xml_position Example.fs Example.parse "OEBPS/content.opf" = Ok (3%Z, 3) ∧
  get_spine_xml_position Example.fs Example.parse "OEBPS/nospine.opf" = Ok ((-1)%Z, 2).
Proof.
  split.
  - destruct (get_spine_xml_position_spec Example.fs Example.parse
                "OEBPS/content.opf" Example.opf_markup
                (Tag "package" [] [Tag "metadata" [] []; Tag "manifest" [] [];
                                   Tag "spine" [] []])
                eq_refl eq_refl) as (attrs & contents & children & Hp & -> & Hfound & _).
    injection Hp as <- <-.
    apply (Hfound 2 (Tag "spine" [] [])); [reflexivity|reflexivity|].
    intros [|[|j]] c Hj Hc; simpl in Hc.
    + injection Hc as <-. discriminate.
    + injection Hc as <-. discriminate.
    + lia.
  - destruct (get_spine_xml_position_spec Example.fs Example.parse
                "OEBPS/nospine.opf" Example.opf_nospine_markup
                (Tag "package" [] [Tag "metadata" [] []; Tag "manifest" [] []])
                eq_refl eq_refl) as (attrs & contents & children & Hp & -> & _ & Habsent).
    injection Hp as <- <-.
    apply Habsent. intros c Hc.
    apply elem_of_cons in Hc as [->|Hc]; [discriminate|].
    apply list_elem_of_singleton in Hc. subst c. discriminate.
Defined.

(** Spec scenario 5: the spine names [cX], which the manifest lacks. *)
Lemma map_spine_to_files_unresolved_witness :
  ∃ missing pre post,
    map_spine_to_files Example.manifest ["c1"; "cX"; "c2"] "OEBPS"
    = Raise (KeyError missing) ∧
    ["c1"; "cX"; "c2"] = pre ++ missing :: post ∧
    Example.manifest !! missing = None ∧
    (∀ x, x ∈ pre -> is_Some (Example.manifest !! x)) ∧
    ((∀ x, x ∈ ["c1"; "cX"; "c2"] -> Example.manifest !! x = None -> x = "cX") ->
     missing = "cX").
Proof.
  apply (map_spine_to_files_unresolved Example.manifest ["c1"; "cX"; "c2"] "OEBPS" "cX").
  - right. left.
  - reflexivity.
Defined.

(** Spec scenario 4: the query is in no document. *)
Lemma locate_not_found_witness :
  traverse_and_trace_query Example.fs Example.parse
    ["OEBPS/ch1.xhtml"; "OEBPS/ch2.xhtml"] "absent" = Ok not_found.
Proof.
  apply locate_not_found. intros f Hf.
  apply elem_of_cons in Hf as [->|Hf].
  - apply (no_match_in_check _ _ _ _ (find_all_strings Example.ch1)); reflexivity.
  - apply list_elem_of_singleton in Hf. subst f.
    apply (no_match_in_check _ _ _ _ (find_all_strings Example.ch2)); reflexivity.
Defined.

Lemma element_path_walk_witness :
  ∃ element,
    locates Example.fs Example.parse ["OEBPS/ch1.xhtml"; "OEBPS/ch2.xhtml"] "world"
      world_address element ∧
    element_path world_address
    = Some (join "/" (reverse (map
        (fun t =>
           tag_name t +:+ "[" +:+
           str (1 + length (filter (fun e => is_tag_named (tag_name t) e = true)
                              (previous_siblings t))) +:+ "]")
        (ancestors (string_parent element))))).
Proof.
  apply (element_path_walk Example.fs Example.parse
           ["OEBPS/ch1.xhtml"; "OEBPS/ch2.xhtml"] "world" world_address).
  - reflexivity.
  - discriminate.
Defined.

Lemma path_lengths_witness :
  ∃ element element_path_list file_index_list,
    locates Example.fs Example.parse ["OEBPS/ch1.xhtml"; "OEBPS/ch2.xhtml"] "world"
      world_address element ∧
    trace element = (element_path_list, file_index_list) ∧
    element_path world_address = Some (join "/" element_path_list) ∧
    file_index world_address = Some (join "/" (map str file_index_list)) ∧
    length element_path_list
    = length file_index_list
      + length (filter (fun t => tag_name t = "html")
                  (ancestors (string_parent element))) ∧
    (length element_path_list = length file_index_list + 1 <->
     length (filter (fun t => tag_name t = "html")
               (ancestors (string_parent element))) = 1).
Proof.
  apply (path_lengths Example.fs Example.parse
           ["OEBPS/ch1.xhtml"; "OEBPS/ch2.xhtml"] "world" world_address).
  - reflexivity.
  - discriminate.
Defined.

Lemma index_path_walk_witness :
  ∃ element chain,
    locates Example.fs Example.parse ["OEBPS/ch1.xhtml"; "OEBPS/ch2.xhtml"] "world"
      world_address element ∧
    chain = reverse (ancestors (string_parent element)) ∧
    element_path world_address = Some (join "/" (map label chain)) ∧
    file_index world_address
    = Some (join "/" (map str
        (map ordinal (filter (fun t => tag_name t ≠ "html") chain)))).
Proof.
  apply (index_path_walk Example.fs Example.parse
           ["OEBPS/ch1.xhtml"; "OEBPS/ch2.xhtml"] "world" world_address).
  - reflexivity.
  - discriminate.
Defined.

Lemma document_root_in_paths_witness :
  ∃ element chain,
    locates Example.fs Example.parse ["OEBPS/ch1.xhtml"; "OEBPS/ch2.xhtml"] "world"
      world_address element ∧
    reverse (ancestors (string_parent element)) = document_ref :: chain ∧
    element_path world_address
    = Some (join "/" ("[document][1]" :: map label chain)) ∧
    file_index world_address
    = Some (join "/" (map str
        (1 :: map ordinal (filter (fun t => tag_name t ≠ "html") chain)))).
Proof.
  apply (document_root_in_paths Example.fs Example.parse
           ["OEBPS/ch1.xhtml"; "OEBPS/ch2.xhtml"] "world" world_address).
  - reflexivity.
  - discriminate.
Defined.

(** The empty query on the first chapter: a match with both offsets 0. *)
Lemma locate_empty_query_witness :
  ∃ r,
    traverse_and_trace_query Example.fs Example.parse
      ["OEBPS/ch1.xhtml"; "OEBPS/ch2.xhtml"] "" = Ok r ∧
    r ≠ not_found ∧
    r = address_of 0 2 "OEBPS/ch1.xhtml"
          (mkStringRef "Nothing here"
             (mkTagRef "p" [] (Some (mkTagRef "body" []
                (Some (mkTagRef "html" [] (Some document_ref))))))) "" ∧
    spine_idx r = Some 1 ∧
    matching_file r = Some "OEBPS/ch1.xhtml" ∧
    start_offset r = 0%Z ∧ end_offset r = 0%Z ∧
    ¬ (start_offset r < end_offset r)%Z.
Proof.
  apply (locate_empty_query Example.fs Example.parse
           "OEBPS/ch1.xhtml" ["OEBPS/ch2.xhtml"] _ []).
  reflexivity.
Defined.

(** *** Where the code departs from the spec's words *)

Lemma hello_locates :
  locates Example.fs Example.parse ["OEBPS/fragment.xhtml"] "hello"
    hello_address Example.hello.
Proof.
  exists 0, "OEBPS/fragment.xhtml", [Example.hello].
  split; [reflexivity|]. split; [reflexivity|]. split; [|reflexivity].
  exists [], []. split; [reflexivity|]. split; [|reflexivity].
  intros e He. by apply elem_of_nil in He.
Qed.

(** C2 as stated fails on a document without [html] element: for the page
    [<div><p>hello</p></div>] both paths have three steps. *)
Lemma path_lengths_counterexample :
  traverse_and_trace_query Example.fs Example.parse ["OEBPS/fragment.xhtml"] "hello"
  = Ok hello_address ∧
  locates Example.fs Example.parse ["OEBPS/fragment.xhtml"] "hello"
    hello_address Example.hello ∧
  trace Example.hello = (["[document][1]"; "div[1]"; "p[1]"], [1; 1; 1]) ∧
  element_path hello_address = Some "[document][1]/div[1]/p[1]" ∧
  file_index hello_address = Some "1/1/1" ∧
  length (trace Example.hello).1 ≠ length (trace Example.hello).2 + 1.
Proof.
  split; [reflexivity|]. split; [apply hello_locates|].
  split; [reflexivity|]. split; [reflexivity|]. split; [reflexivity|].
  vm_compute. lia.
Qed.

(** C3 as stated fails on the same page: its outermost element is [div],
    whose step is kept in the index path, and so is the step of the root
    object of the parser; the index path is neither the chain without the
    outermost element nor the chain without the root. *)
Lemma index_path_walk_counterexample :
  traverse_and_trace_query Example.fs Example.parse ["OEBPS/fragment.xhtml"] "hello"
  = Ok hello_address ∧
  locates Example.fs Example.parse ["OEBPS/fragment.xhtml"] "hello"
    hello_address Example.hello ∧
  outermost_element_name Example.fragment = Some "div" ∧
  map tag_name (reverse (ancestors (string_parent Example.hello)))
  = ["[document]"; "div"; "p"] ∧
  (trace Example.hello).2 = [1; 1; 1] ∧
  file_index hello_address = Some "1/1/1" ∧
  (trace Example.hello).2
  ≠ spec_index_path "div" (reverse (ancestors (string_parent Example.hello))) ∧
  (trace Example.hello).2
  ≠ spec_index_path "[document]" (reverse (ancestors (string_parent Example.hello))).
Proof.
  split; [reflexivity|]. split; [apply hello_locates|].
  repeat (split; [reflexivity|]).
  split; vm_compute; discriminate.
Qed.


(** * More properties of the pipeline *)

(** ** The scan of the documents *)

Section Scan.

Variable fs : string -> option string.
Variable parse : string -> string -> list PageElement.

Lemma strings_of_file_bool file_path elements element :
  strings_of_file fs parse file_path = Some elements ->
  element ∈ elements ->
  str_bool (string_text element) = true.
Proof.
  unfold strings_of_file. destruct (fs file_path) as [content|]; [|done].
  intros [= <-]. apply find_all_strings_bool.
Qed.

Lemma first_match_elem elements query element :
  first_match elements query element -> element ∈ elements.
Proof. intros (before & after & -> & _). apply elem_of_app. right. left. Qed.

Lemma first_match_in elements query element :
  first_match elements query element -> str_in query (string_text element) = true.
Proof. by intros (before & after & _ & _ & ?). Qed.

Lemma traverse_from_unreadable spine_idx total pre file_path post query :
  (∀ f, f ∈ pre -> no_match_in fs parse f query) ->
  fs file_path = None ->
  traverse_from fs parse spine_idx total (pre ++ file_path :: post) query
  = Raise (OSError file_path).
Proof.
  revert spine_idx; induction pre as [|f pre IH]; intros spine_idx Hpre Hfs.
  - simpl. by rewrite Hfs.
  - simpl app. rewrite traverse_from_skip by (apply Hpre; left).
    apply IH; [|done]. intros; apply Hpre. by right.
Qed.

(** X1. A document that cannot be read stops the scan with the [OSError] of
    that document when no earlier document holds the query: it is neither
    skipped nor reported as not found, whatever the later documents hold. *)
Theorem locate_unreadable pre file_path post query :
  (∀ f, f ∈ pre -> no_match_in fs parse f query) ->
  fs file_path = None ->
  traverse_and_trace_query fs parse (pre ++ file_path :: post) query
  = Raise (OSError file_path).
Proof. apply traverse_from_unreadable. Qed.

(** X2. The fields of a successful result: the spine index is the 1-based
    position of the matched file in the spine, hence between 1 and the
    total, which is the length of the spine; the offsets are those of the
    first occurrence of the query in the matched string, within its text;
    and [match_start < match_end] holds exactly for a non-empty query. *)
Theorem locate_result_bounds spine_files query r :
  traverse_and_trace_query fs parse spine_files query = Ok r ->
  matching_file r ≠ None ->
  ∃ (i : nat) file_path element,
    locates fs parse spine_files query r element ∧
    spine_idx r = Some (i + 1) ∧
    total_spines r = Some (length spine_files) ∧
    1 ≤ i + 1 ≤ length spine_files ∧
    spine_files !! i = Some file_path ∧
    matching_file r = Some file_path ∧
    first_occurrence r (string_text element) query ∧
    ((start_offset r < end_offset r)%Z <-> query ≠ "").
Proof.
  intros Hr Hm. destruct (traverse_from_inv _ _ _ _ _ _ _ Hr Hm)
    as (i & file_path & elements & element & Hi & Hfile & Hfirst & ->).
  exists i, file_path, element. split; [by exists i, file_path, elements|].
  split; [done|]. split; [done|]. split.
  { apply lookup_lt_Some in Hi. lia. }
  split; [done|]. split; [done|]. split.
  { apply address_of_first_occurrence. by eapply first_match_in. }
  unfold address_of, len; simpl. destruct query; simpl; split; try done; lia.
Qed.



End Scan.

(** X4. The documents after the matching one are never read: two staging
    areas that hold the same documents up to the first one with a match
    give the same result, whatever they hold, or lack, afterwards. *)
Theorem locate_ignores_later_documents fs1 fs2 parse pre file_path post query
    elements element :
  (∀ f, f ∈ pre ++ [file_path] -> fs1 f = fs2 f) ->
  (∀ f, f ∈ pre -> no_match_in fs1 parse f query) ->
  strings_of_file fs1 parse file_path = Some elements ->
  first_match elements query element ->
  traverse_and_trace_query fs1 parse (pre ++ file_path :: post) query
  = traverse_and_trace_query fs2 parse (pre ++ file_path :: post) query ∧
  traverse_and_trace_query fs2 parse (pre ++ file_path :: post) query
  = Ok (address_of (length pre) (length (pre ++ file_path :: post))
          file_path element query).
Proof.
  intros Hsame Hpre Hfile Hfirst.
  assert (str_bool (string_text element) = true) as Hbool.
  { eapply strings_of_file_bool; [done|]. by eapply first_match_elem. }
  assert (∀ f, f ∈ pre ++ [file_path] ->
            strings_of_file fs2 parse f = strings_of_file fs1 parse f) as Hstrings.
  { intros f Hf. unfold strings_of_file. by rewrite (Hsame f Hf). }
  unfold traverse_and_trace_query.
  rewrite (traverse_from_first_match fs1 parse _ _ _ _ _ _ elements element)
    by done.
  rewrite (traverse_from_first_match fs2 parse _ _ _ _ _ _ elements element);
    [done| | |done|done].
  - intros f Hf. destruct (Hpre f Hf) as (els & Hels & Hnone).
    exists els. split; [|done]. rewrite Hstrings; [done|].
    apply elem_of_app. by left.
  - rewrite Hstrings; [done|]. apply elem_of_app. right. left.
Qed.

(** ** The position of the spine, again *)

Section SpinePositionOutcomes.

Variable fs : string -> option string.
Variable parse : string -> string -> list PageElement.



End SpinePositionOutcomes.

(** ** The descriptor parser *)

Section DescriptorParser.

Variable fs : string -> option string.
Variable parse : string -> string -> list PageElement.

Lemma build_manifest_total items manifest :
  Forall item_ok items -> ∃ m, build_manifest items manifest = Ok m.
Proof.
  intros Hall; revert manifest.
  induction Hall as [|item items [[id Hid] [href Hhref]] _ IH]; intros manifest; simpl.
  - eauto.
  - rewrite Hid, Hhref. apply IH.
Qed.

Lemma build_manifest_error items manifest pre item post :
  items = pre ++ item :: post ->
  Forall item_ok pre ->
  ¬ item_ok item ->
  build_manifest items manifest
  = Raise (KeyError (match getitem item "id" with
                     | Some _ => "href"
                     | None => "id"
                     end)).
Proof.
  intros -> Hpre Hitem; revert manifest.
  induction Hpre as [|p pre [[id Hid] [href Hhref]] _ IH]; intros manifest; simpl.
  - destruct (getitem item "id") as [id|] eqn:Hid; [|done].
    destruct (getitem item "href") as [href|] eqn:Hhref; [|done].
    destruct Hitem. split; by eexists.
  - rewrite Hid, Hhref. apply IH.
Qed.

Lemma build_manifest_ok items manifest m :
  build_manifest items manifest = Ok m -> Forall item_ok items.
Proof.
  revert manifest; induction items as [|item items IH]; intros manifest; simpl.
  - constructor.
  - destruct (getitem item "id") as [id|] eqn:Hid; [|done].
    destruct (getitem item "href") as [href|] eqn:Hhref; [|done].
    intros Hm. constructor; [split; by eexists|by eapply IH].
Qed.

(** The pair of an id in the manifest is the one of the last item with that
    id, or the one the dictionary held before when no item has the id. *)
Lemma build_manifest_lookup items manifest m id href :
  build_manifest items manifest = Ok m ->
  m !! id = Some href <->
  (∃ k item,
     items !! k = Some item ∧
     getitem item "id" = Some id ∧ getitem item "href" = Some href ∧
     ∀ k' item', k < k' -> items !! k' = Some item' -> getitem item' "id" ≠ Some id) ∨
  (manifest !! id = Some href ∧
   ∀ k item, items !! k = Some item -> getitem item "id" ≠ Some id).
Proof.
  revert manifest; induction items as [|item items IH]; intros manifest; simpl.
  - intros [= <-]. split.
    + intros Hm. right. split; [done|]. intros k item Hk. by destruct k.
    + intros [(k & item & Hk & _)|[? _]]; [by destruct k|done].
  - destruct (getitem item "id") as [id0|] eqn:Hid; [|done].
    destruct (getitem item "href") as [href0|] eqn:Hhref; [|done].
    intros Hm. rewrite (IH _ Hm). split.
    + intros [(k & it & Hk & Hkid & Hkhref & Hlast)|[Hins Hnone]].
      * left. exists (S k), it. repeat split; try done.
        intros [|k'] it' Hlt Hk'; [lia|]. apply (Hlast k' it'); [lia|done].
      * destruct (decide (id0 = id)) as [->|Hne].
        -- rewrite lookup_insert_eq in Hins. injection Hins as ->.
           left. exists 0, item. repeat split; try done.
           intros [|k'] it' Hlt Hk'; [lia|]. by apply (Hnone k' it').
        -- rewrite lookup_insert_ne in Hins by done.
           right. split; [done|]. intros [|k] it Hk; simpl in Hk.
           ++ injection Hk as <-. congruence.
           ++ by apply (Hnone k it).
    + intros [(k & it & Hk & Hkid & Hkhref & Hlast)|[Hm0 Hnone]].
      * destruct k as [|k]; simpl in Hk.
        -- injection Hk as <-. right. split.
           ++ assert (id0 = id) as -> by congruence.
              assert (href0 = href) as -> by congruence.
              apply lookup_insert_eq.
           ++ intros k' it' Hk'. apply (Hlast (S k') it'); [lia|done].
        -- left. exists k, it. repeat split; try done.
           intros k' it' Hlt Hk'. apply (Hlast (S k') it'); [lia|done].
      * right. split.
        -- rewrite lookup_insert_ne; [done|].
           intros ->. by apply (Hnone 0 item).
        -- intros k it Hk. by apply (Hnone (S k) it).
Qed.

Lemma build_manifest_dom items manifest m id :
  build_manifest items manifest = Ok m ->
  is_Some (m !! id) <->
  is_Some (manifest !! id) ∨ ∃ item, item ∈ items ∧ getitem item "id" = Some id.
Proof.
  revert manifest; induction items as [|item items IH]; intros manifest; simpl.
  - intros [= <-]. split; [by left|]. intros [?|(item & Hin & _)]; [done|].
    by apply elem_of_nil in Hin.
  - destruct (getitem item "id") as [id0|] eqn:Hid; [|done].
    destruct (getitem item "href") as [href0|] eqn:Hhref; [|done].
    intros Hm. rewrite (IH _ Hm). split.
    + intros [Hins|(it & Hin & Hit)].
      * destruct (decide (id0 = id)) as [->|Hne].
        -- right. exists item. split; [left|done].
        -- rewrite lookup_insert_ne in Hins by done. by left.
      * right. exists it. split; [by right|done].
    + intros [H0|(it & Hin & Hit)].
      * destruct (decide (id0 = id)) as [->|Hne].
        -- left. rewrite lookup_insert_eq. by eexists.
        -- left. by rewrite lookup_insert_ne.
      * apply elem_of_cons in Hin as [->|Hin].
        -- left. assert (id0 = id) as -> by congruence.
           rewrite lookup_insert_eq. by eexists.
        -- right. by exists it.
Qed.

Lemma build_spine_total itemrefs :
  Forall itemref_ok itemrefs -> ∃ spine, build_spine itemrefs = Ok spine.
Proof.
  induction 1 as [|r itemrefs [idref Hr] _ [spine IH]]; simpl; [eauto|].
  rewrite Hr, IH. eauto.
Qed.

Lemma build_spine_ok itemrefs spine :
  build_spine itemrefs = Ok spine ->
  Forall itemref_ok itemrefs ∧
  Some <$> spine = (fun r => getitem r "idref") <$> itemrefs.
Proof.
  revert spine; induction itemrefs as [|r itemrefs IH]; intros spine; simpl.
  - intros [= <-]. split; [constructor|done].
  - destruct (getitem r "idref") as [idref|] eqn:Hr; [|done].
    destruct (build_spine itemrefs) as [rest|e]; [|done].
    intros [= <-]. destruct (IH rest eq_refl) as [Hall Heq].
    split; [constructor; [by eexists|done]|].
    simpl. f_equal. exact Heq.
Qed.

Lemma build_spine_error itemrefs pre itemref post :
  itemrefs = pre ++ itemref :: post ->
  Forall itemref_ok pre ->
  getitem itemref "idref" = None ->
  build_spine itemrefs = Raise (KeyError "idref").
Proof.
  intros -> Hpre Hr.
  induction Hpre as [|p pre [idref Hp] _ IH]; simpl.
  - by rewrite Hr.
  - by rewrite Hp, IH.
Qed.

(** X6. [parse_content_opf] returns a manifest and a spine exactly when the
    descriptor can be read, every [item] element of the document has an
    [id] and an [href], and every [itemref] element has an [idref]; the
    elements are looked for in the whole document, at any depth. *)
Theorem parse_content_opf_succeeds content_opf_path :
  (∃ manifest spine,
     parse_content_opf fs parse content_opf_path = Ok (manifest, spine)) <->
  ∃ opf_content,
    fs content_opf_path = Some opf_content ∧
    Forall item_ok (find_all (BeautifulSoup parse opf_content "xml") "item") ∧
    Forall itemref_ok (find_all (BeautifulSoup parse opf_content "xml") "itemref").
Proof.
  unfold parse_content_opf. split.
  - intros (manifest & spine & Hp).
    destruct (fs content_opf_path) as [opf_content|]; [|done].
    exists opf_content. split; [done|].
    destruct (build_manifest _ ∅) as [m|] eqn:Hm; [|done].
    destruct (build_spine _) as [s|] eqn:Hs; [|done].
    split; [by eapply build_manifest_ok|by eapply build_spine_ok].
  - intros (opf_content & -> & Hitems & Hrefs).
    destruct (build_manifest_total _ ∅ Hitems) as [m ->].
    destruct (build_spine_total _ Hrefs) as [s ->]. eauto.
Qed.

(** X7. The errors of [parse_content_opf]: the [OSError] of a descriptor
    that cannot be read; otherwise the [KeyError] of the first attribute
    found missing, [id] before [href] in the first faulty item, and [idref]
    in the first faulty itemref only when every item is complete: a faulty
    item hides every fault of the spine. The error names the attribute, not
    the element. *)
Theorem parse_content_opf_errors content_opf_path :
  (fs content_opf_path = None ->
   parse_content_opf fs parse content_opf_path = Raise (OSError content_opf_path)) ∧
  (∀ opf_content,
     fs content_opf_path = Some opf_content ->
     (∀ pre item post,
        find_all (BeautifulSoup parse opf_content "xml") "item"
        = pre ++ item :: post ->
        Forall item_ok pre -> ¬ item_ok item ->
        parse_content_opf fs parse content_opf_path
        = Raise (KeyError (match getitem item "id" with
                           | Some _ => "href"
                           | None => "id"
                           end))) ∧
     (∀ pre itemref post,
        Forall item_ok (find_all (BeautifulSoup parse opf_content "xml") "item") ->
        find_all (BeautifulSoup parse opf_content "xml") "itemref"
        = pre ++ itemref :: post ->
        Forall itemref_ok pre -> getitem itemref "idref" = None ->
        parse_content_opf fs parse content_opf_path = Raise (KeyError "idref"))).
Proof.
  unfold parse_content_opf. split.
  - by intros ->.
  - intros opf_content Hfs. rewrite Hfs. split.
    + intros pre item post Hitems Hpre Hitem.
      by rewrite (build_manifest_error _ ∅ pre item post Hitems Hpre Hitem).
    + intros pre itemref post Hitems Hrefs Hpre Hr.
      destruct (build_manifest_total _ ∅ Hitems) as [m Hm].
      rewrite Hm. by rewrite (build_spine_error _ pre itemref post Hrefs Hpre Hr).
Qed.

(** X8. The manifest keeps one path per id, the one of the last item with
    that id in document order: an id maps to [href] exactly when some item
    has this id and this [href] and no later item has the id. *)
Theorem parse_content_opf_manifest content_opf_path opf_content manifest spine id href :
  fs content_opf_path = Some opf_content ->
  parse_content_opf fs parse content_opf_path = Ok (manifest, spine) ->
  manifest !! id = Some href <->
  ∃ k item,
    find_all (BeautifulSoup parse opf_content "xml") "item" !! k = Some item ∧
    getitem item "id" = Some id ∧ getitem item "href" = Some href ∧
    ∀ k' item',
      k < k' ->
      find_all (BeautifulSoup parse opf_content "xml") "item" !! k' = Some item' ->
      getitem item' "id" ≠ Some id.
Proof.
  unfold parse_content_opf. intros -> Hp.
  destruct (build_manifest _ ∅) as [m|] eqn:Hm; [|done].
  destruct (build_spine _) as [s|]; [|done]. injection Hp as -> ->.
  rewrite (build_manifest_lookup _ _ _ id href Hm). split.
  - by intros [?|[? _]].
  - by left.
Qed.

(** X9. The spine has one entry per [itemref] element of the document, in
    document order: the entry at each position is the [idref] of the
    element at that position, so that an id referenced twice is twice in
    the spine. *)
Theorem parse_content_opf_spine content_opf_path opf_content manifest spine :
  fs content_opf_path = Some opf_content ->
  parse_content_opf fs parse content_opf_path = Ok (manifest, spine) ->
  length spine
  = length (find_all (BeautifulSoup parse opf_content "xml") "itemref") ∧
  ∀ i itemref,
    find_all (BeautifulSoup parse opf_content "xml") "itemref" !! i = Some itemref ->
    getitem itemref "idref" = spine !! i.
Proof.
  unfold parse_content_opf. intros -> Hp.
  destruct (build_manifest _ ∅) as [m|]; [|done].
  destruct (build_spine _) as [s|] eqn:Hs; [|done]. injection Hp as -> ->.
  destruct (build_spine_ok _ _ Hs) as [_ Heq]. split.
  - by rewrite <- (length_fmap Some spine), Heq, length_fmap.
  - intros i itemref Hi.
    pose proof (f_equal (fun l => l !! i) Heq) as Hlook. simpl in Hlook.
    rewrite !list_lookup_fmap, Hi in Hlook. simpl in Hlook.
    destruct (spine !! i) as [x|]; simpl in Hlook; [|done]. by injection Hlook.
Qed.

(** X10. Parsing then resolving: for a descriptor that parses, the spine is
    resolved to a list of files, one per [itemref], when every [idref] of
    the document is the [id] of some [item]; when some [idref] is the id of
    no item, the resolution raises the [KeyError] of such an [idref]. *)
Theorem parse_then_resolve content_opf_path opf_content manifest spine base_path :
  fs content_opf_path = Some opf_content ->
  parse_content_opf fs parse content_opf_path = Ok (manifest, spine) ->
  ((∀ itemref idref,
      itemref ∈ find_all (BeautifulSoup parse opf_content "xml") "itemref" ->
      getitem itemref "idref" = Some idref ->
      declares (find_all (BeautifulSoup parse opf_content "xml") "item") idref) ->
   ∃ files,
     map_spine_to_files manifest spine base_path = Ok files ∧
     length files
     = length (find_all (BeautifulSoup parse opf_content "xml") "itemref")) ∧
  (∀ itemref idref,
      itemref ∈ find_all (BeautifulSoup parse opf_content "xml") "itemref" ->
      getitem itemref "idref" = Some idref ->
      ¬ declares (find_all (BeautifulSoup parse opf_content "xml") "item") idref ->
      ∃ missing,
        map_spine_to_files manifest spine base_path = Raise (KeyError missing) ∧
        missing ∈ spine ∧
        ¬ declares (find_all (BeautifulSoup parse opf_content "xml") "item") missing).
Proof.
  unfold parse_content_opf. intros -> Hp.
  destruct (build_manifest _ ∅) as [m|] eqn:Hm; [|done].
  destruct (build_spine _) as [s|] eqn:Hs; [|done]. injection Hp as -> ->.
  destruct (build_spine_ok _ _ Hs) as [_ Heq].
  set (items := find_all (BeautifulSoup parse opf_content "xml") "item") in *.
  set (itemrefs := find_all (BeautifulSoup parse opf_content "xml") "itemref") in *.
  assert (∀ id, is_Some (manifest !! id) <-> declares items id) as Hdom.
  { intros id. rewrite (build_manifest_dom _ _ _ id Hm). unfold declares.
    split; [|by right]. intros [[? H0]|?]; [|done]. by rewrite lookup_empty in H0. }
  assert (∀ id, id ∈ spine <->
            ∃ itemref, itemref ∈ itemrefs ∧ getitem itemref "idref" = Some id)
    as Hspine.
  { intros id. split.
    - intros Hid. apply list_elem_of_lookup in Hid as [i Hi].
      pose proof (f_equal (fun l => l !! i) Heq) as Hlook. simpl in Hlook.
      rewrite !list_lookup_fmap, Hi in Hlook. simpl in Hlook.
      destruct (itemrefs !! i) as [r|] eqn:Hr; [|done].
      exists r. split; [by eapply list_elem_of_lookup_2|]. by injection Hlook.
    - intros (r & Hr & Hid). apply list_elem_of_lookup in Hr as [i Hi].
      pose proof (f_equal (fun l => l !! i) Heq) as Hlook. simpl in Hlook.
      rewrite !list_lookup_fmap, Hi in Hlook. simpl in Hlook.
      destruct (spine !! i) as [x|] eqn:Hx; [|done].
      simpl in Hlook. apply list_elem_of_lookup. exists i. congruence. }
  split.
  - intros Hall.
    destruct (map_spine_to_files_total manifest spine base_path) as [files Hfiles].
    { intros id Hid. apply Hspine in Hid as (r & Hr & Hid).
      apply Hdom. by eapply Hall. }
    exists files. split; [done|].
    assert (length files = length spine) as ->.
    { clear -Hfiles. revert files Hfiles.
      induction spine as [|id spine IH]; intros files; simpl.
      - by intros [= <-].
      - destruct (manifest !! id); [|done].
        destruct (map_spine_to_files manifest spine base_path) as [rest|]; [|done].
        intros [= <-]. simpl. by rewrite (IH rest). }
    by rewrite <- (length_fmap Some spine), Heq, length_fmap.
  - intros itemref idref Hr Hid Hnot.
    destruct (map_spine_to_files_first_missing manifest spine base_path)
      as (missing & pre & post & Hraise & Hsplit & Hmissing & _).
    { exists idref. split; [apply Hspine; eauto|].
      destruct (manifest !! idref) eqn:Hl; [|done].
      destruct Hnot. apply Hdom. by eexists. }
    exists missing. split; [done|]. split.
    + rewrite Hsplit. apply elem_of_app. right. left.
    + intros Hd. apply Hdom in Hd. rewrite Hmissing in Hd. by destruct Hd.
Qed.

End DescriptorParser.

(** ** Paths *)

Section Paths.

Lemma contains_sep_false_head (b : string) :
  contains_sep b = false -> head_to_last_sep b = "".
Proof. destruct b as [|c b]; [done|]. simpl. by intros ->. Qed.

Lemma contains_sep_app (a b : string) :
  contains_sep (a +:+ b) = contains_sep a || contains_sep b.
Proof.
  induction a as [|c a IH]; [done|]. simpl. rewrite IH. by rewrite orb_assoc.
Qed.

Lemma head_to_last_sep_app (a b : string) :
  head_to_last_sep (a +:+ "/" +:+ b) = a +:+ "/" +:+ head_to_last_sep b.
Proof.
  induction a as [|c a IH].
  - done.
  - change (String c a +:+ "/" +:+ b) with (String c (a +:+ "/" +:+ b)).
    cbn [head_to_last_sep]. rewrite IH.
    replace (contains_sep (String c (a +:+ "/" +:+ b))) with true; [done|].
    simpl. rewrite contains_sep_app. simpl. by rewrite !orb_true_r.
Qed.

Lemma all_sep_app (a b : string) : all_sep (a +:+ b) = all_sep a && all_sep b.
Proof.
  induction a as [|c a IH]; [done|]. simpl. rewrite IH. by rewrite andb_assoc.
Qed.

Lemma endswith_sep_all_sep (a : string) :
  a ≠ "" -> endswith_sep a = false -> all_sep a = false.
Proof.
  induction a as [|c a IH]; [done|]. intros _. simpl.
  destruct a as [|d a].
  - intros ->. done.
  - intros Hend. rewrite IH by done. by rewrite andb_false_r.
Qed.

Lemma rstrip_sep_app (a b : string) :
  rstrip_sep (a +:+ b)
  = match rstrip_sep b with
    | EmptyString => rstrip_sep a
    | String d r => a +:+ String d r
    end.
Proof.
  induction a as [|c a IH].
  - change ("" +:+ b) with b. by destruct (rstrip_sep b).
  - change (String c a +:+ b) with (String c (a +:+ b)).
    cbn [rstrip_sep]. rewrite IH.
    destruct (rstrip_sep b) as [|d r]; [done|]. by destruct a.
Qed.

Lemma rstrip_sep_id (a : string) : endswith_sep a = false -> rstrip_sep a = a.
Proof.
  induction a as [|c a IH]; [done|]. simpl. destruct a as [|d a].
  - simpl. by intros ->.
  - intros Hend. rewrite IH by done. done.
Qed.

Lemma rstrip_sep_head (c : ascii) (s : string) :
  c ≠ "/"%char -> ∃ r, rstrip_sep (String c s) = String c r.
Proof.
  intros Hc. simpl. destruct (rstrip_sep s) as [|d r]; [|eauto].
  rewrite bool_decide_eq_false_2 by done. eauto.
Qed.

Lemma os_path_join_relative (a b : string) :
  a ≠ "" -> endswith_sep a = false -> startswith_sep b = false ->
  os_path_join a b = a +:+ "/" +:+ b.
Proof.
  intros Ha Hend Hb. unfold os_path_join. rewrite Hb, Hend.
  by destruct a.
Qed.

Lemma append_assoc (a b c : string) : (a +:+ b) +:+ c = a +:+ b +:+ c.
Proof.
  induction a as [|x a IH]; [done|].
  change (String x ((a +:+ b) +:+ c) = String x (a +:+ b +:+ c)). by rewrite IH.
Qed.

(** X11. The directory of a joined path: for a directory [a] that is not
    empty and does not end with a separator, and a relative path [b], the
    directory name of [os.path.join(a, b)] is [a] itself when [b] is a bare
    file name, and [os.path.join(a, os.path.dirname(b))] when [b] has
    directories of its own. *)
Theorem os_path_dirname_join (a b : string) :
  a ≠ "" -> endswith_sep a = false -> startswith_sep b = false ->
  os_path_dirname (os_path_join a b)
  = if contains_sep b then os_path_join a (os_path_dirname b) else a.
Proof.
  intros Ha Hend Hb. rewrite os_path_join_relative by done.
  unfold os_path_dirname at 1. rewrite head_to_last_sep_app.
  assert (str_bool (a +:+ "/" +:+ head_to_last_sep b) = true) as ->
    by (by destruct a).
  rewrite all_sep_app, (endswith_sep_all_sep a) by done. simpl.
  destruct (contains_sep b) eqn:Hsep.
  - destruct b as [|c b]; [done|].
    assert (c ≠ "/"%char) as Hc.
    { simpl in Hb. by apply bool_decide_eq_false in Hb. }
    unfold os_path_dirname. cbn [head_to_last_sep]. rewrite Hsep.
    cbn [str_bool all_sep andb negb].
    rewrite (bool_decide_eq_false_2 (c = "/"%char)) by done. simpl andb. simpl negb.
    cbv iota.
    destruct (rstrip_sep_head c (head_to_last_sep b) Hc) as [r Hr].
    rewrite Hr. rewrite os_path_join_relative; [|done|done|].
    2:{ simpl. by apply bool_decide_eq_false. }
    rewrite <- append_assoc, rstrip_sep_app, Hr. by rewrite append_assoc.
  - rewrite (contains_sep_false_head b Hsep).
    change ("/" +:+ "") with "/". rewrite rstrip_sep_app.
    change (rstrip_sep "/") with "". by apply rstrip_sep_id.
Qed.

End Paths.

Lemma os_path_dirname_join_witness :
  os_path_dirname (os_path_join "/tmp/epub" "OEBPS/content.opf")
  = os_path_join "/tmp/epub" (os_path_dirname "OEBPS/content.opf") ∧
  os_path_dirname (os_path_join "/tmp/epub" "content.opf") = "/tmp/epub".
Proof.
  split.
  - apply (os_path_dirname_join "/tmp/epub" "OEBPS/content.opf");
      [discriminate|reflexivity|reflexivity].
  - apply (os_path_dirname_join "/tmp/epub" "content.opf");
      [discriminate|reflexivity|reflexivity].
Defined.

(** ** The address and the position in the tree *)

Section Positions.

Lemma string_at_steps path :
  ∀ me nodes r,
    string_at me nodes path = Some r ->
    map step_of (reverse (ancestors (string_parent r)))
    = map step_of (reverse (ancestors me)) ++ tree_steps nodes path.
Proof.
  induction path as [|i rest IH]; intros me nodes r; simpl; [done|].
  destruct (nodes !! i) as [[n a cs|s]|] eqn:Hi; [| |done].
  - intros Hr. rewrite (IH _ _ _ Hr). simpl ancestors.
    rewrite reverse_cons, map_app, <- app_assoc. simpl. do 2 f_equal.
    unfold step_of, ordinal; simpl.
    by rewrite filter_reverse, length_reverse.
  - destruct rest; [|done]. intros [= <-]. simpl. by rewrite app_nil_r.
Qed.

Lemma string_at_depth path :
  ∀ me nodes r,
    string_at me nodes path = Some r ->
    length (tree_steps nodes path) + 1 = length path.
Proof.
  induction path as [|i rest IH]; intros me nodes r; simpl; [done|].
  destruct (nodes !! i) as [[n a cs|s]|] eqn:Hi; [| |done].
  - intros Hr. simpl. by rewrite (IH _ _ _ Hr).
  - by destruct rest.
Qed.

Lemma strings_in_at me top r :
  r ∈ strings_in me [] top -> ∃ path, string_at me top path = Some r.
Proof.
  intros Hr. apply list_elem_of_lookup in Hr as [k Hk].
  pose proof (f_equal (fun l => l !! k) (strings_in_paths me top)) as Heq.
  simpl in Heq. rewrite !list_lookup_fmap, Hk in Heq. simpl in Heq.
  destruct (string_paths_in 0 top !! k) as [path|]; [|done].
  exists path. simpl in Heq. by injection Heq.
Qed.

Lemma map_label_steps (chain : list TagRef) :
  map label chain = map (fun s => step_label s.1 s.2) (map step_of chain).
Proof. induction chain as [|t chain IH]; [done|]. simpl. by rewrite IH. Qed.

Lemma map_ordinal_steps (chain : list TagRef) :
  map ordinal (filter not_html chain)
  = map snd (filter (fun s : string * nat => s.1 ≠ "html") (map step_of chain)).
Proof.
  induction chain as [|t chain IH]; [done|].
  simpl map. rewrite !filter_cons. simpl.
  destruct (decide (not_html t)) as [Ht|Ht], (decide (tag_name t ≠ "html"));
    try done; simpl; by rewrite IH.
Qed.

(** X12. The address read on the tree. In a successful result the matched
    string sits at some path of child positions of the parsed document; the
    element path is [[document][1]] followed by one step per tag on that
    path, with the name of the tag and one more than the number of tags of
    that name among the nodes before it under the same parent; the index
    path is 1 followed by the ordinals of those steps whose name is not
    [html]; and the element path has as many steps as the path has
    positions. *)
Theorem address_from_tree fs parse spine_files query r :
  traverse_and_trace_query fs parse spine_files query = Ok r ->
  matching_file r ≠ None ->
  ∃ file_path content path element,
    matching_file r = Some file_path ∧
    fs file_path = Some content ∧
    string_at document_ref (BeautifulSoup parse content "html.parser") path
    = Some element ∧
    str_in query (string_text element) = true ∧
    element_path r
    = Some (join "/" ("[document][1]"
              :: map (fun s => step_label s.1 s.2)
                   (tree_steps (BeautifulSoup parse content "html.parser") path))) ∧
    file_index r
    = Some (join "/" (map str (1
              :: map snd (filter (fun s : string * nat => s.1 ≠ "html")
                   (tree_steps (BeautifulSoup parse content "html.parser") path))))) ∧
    length ("[document][1]"
              :: map (fun s => step_label s.1 s.2)
                   (tree_steps (BeautifulSoup parse content "html.parser") path))
    = length path.
Proof.
  intros Hr Hm.
  destruct (traverse_from_inv _ _ _ _ _ _ _ Hr Hm)
    as (i & file_path & elements & element & Hi & Hfile & Hfirst & ->).
  unfold strings_of_file in Hfile.
  destruct (fs file_path) as [content|] eqn:Hfs; [|done]. injection Hfile as <-.
  set (top := BeautifulSoup parse content "html.parser") in *.
  assert (element ∈ strings_in document_ref [] top) as Hin.
  { destruct Hfirst as (before & after & Hel & _).
    assert (element ∈ find_all_strings top) as Hel'
      by (rewrite Hel; apply elem_of_app; right; left).
    by apply list_elem_of_filter in Hel' as [_ ?]. }
  destruct (strings_in_at _ _ _ Hin) as [path Hpath].
  exists file_path, content, path, element.
  split; [done|]. split; [done|]. split; [done|].
  split; [by destruct Hfirst as (? & ? & _ & _ & ?)|].
  pose proof (string_at_steps _ _ _ _ Hpath) as Hsteps.
  change (map step_of (reverse (ancestors document_ref)))
    with [("[document]", 1)] in Hsteps.
  unfold address_of; simpl. rewrite trace_spec; simpl.
  rewrite map_label_steps, map_ordinal_steps, Hsteps. simpl.
  split; [done|]. split.
  - done.
  - rewrite length_map. pose proof (string_at_depth _ _ _ _ Hpath) as Hdepth.
    fold top. lia.
Qed.





End Positions.

(** ** The container resolver and the whole run *)

Section Run.

Variable fs : string -> option string.
Variable parse : string -> string -> list PageElement.




Lemma traverse_from_printing_spec spine_idx total files query :
  traverse_from_printing fs parse spine_idx total files query
  = match traverse_from fs parse spine_idx total files query with
    | Ok r =>
        Ok (r, match matching_file r with
               | None => [not_found_in_spine]
               | Some _ => []
               end)
    | Raise e => Raise e
    end.
Proof.
  revert spine_idx; induction files as [|f files IH]; intros spine_idx; simpl; [done|].
  destruct (fs f) as [content|]; [|done].
  destruct (search_query _ query) as [[[element|] ms] me]; [|apply IH].
  destruct (str_bool (string_text element)); [|apply IH].
  by destruct (trace element).
Qed.


Lemma process_epub_stages temp_dir query content_opf_path manifest spine
    spine_files spine_xml_position total_xml_elements :
  find_content_opf fs parse temp_dir = Return content_opf_path ->
  parse_content_opf fs parse content_opf_path = Ok (manifest, spine) ->
  map_spine_to_files manifest spine (os_path_dirname content_opf_path)
  = Ok spine_files ->
  get_spine_xml_position fs parse content_opf_path
  = Ok (spine_xml_position, total_xml_elements) ->
  process_epub fs parse temp_dir query
  = match traverse_and_trace_query fs parse spine_files query with
    | Ok r =>
        Return (match matching_file r with
                | None => [not_found_in_spine]
                | Some _ => []
                end ++ report spine_xml_position r)
    | Raise e => Raised (Exn e)
    end.
Proof.
  intros Hfind Hparse Hmap Hpos. unfold process_epub.
  rewrite Hfind. simpl. rewrite Hparse. simpl. rewrite Hmap. simpl.
  rewrite Hpos. simpl. rewrite traverse_from_printing_spec.
  unfold traverse_and_trace_query.
  by destruct (traverse_from fs parse 0 (length spine_files) spine_files query).
Qed.

(** X16. A run that finds nothing: when the descriptor is resolved and
    parsed, the spine is resolved, and every document of the spine is read
    without a match, [process_epub] ends normally and prints two lines, the
    one of the locate operation and its own, and no line of an address. *)
Theorem process_epub_not_found temp_dir query content_opf_path manifest spine
    spine_files spine_xml_position total_xml_elements :
  find_content_opf fs parse temp_dir = Return content_opf_path ->
  parse_content_opf fs parse content_opf_path = Ok (manifest, spine) ->
  map_spine_to_files manifest spine (os_path_dirname content_opf_path)
  = Ok spine_files ->
  get_spine_xml_position fs parse content_opf_path
  = Ok (spine_xml_position, total_xml_elements) ->
  (∀ f, f ∈ spine_files -> no_match_in fs parse f query) ->
  process_epub fs parse temp_dir query
  = Return ["Query not found in the spine."; "Query not found."].
Proof.
  intros Hfind Hparse Hmap Hpos Hnone.
  rewrite (process_epub_stages _ _ _ _ _ _ _ _ Hfind Hparse Hmap Hpos).
  unfold traverse_and_trace_query. by rewrite traverse_from_none.
Qed.

(** X17. A run that finds the query: with the stages before the scan as
    above, when the first document with a match is [file_path], after the
    documents [pre], and [element] is its first string with the query, the
    run prints six lines: the file, the position of the spine element in
    the package (or -1) over the 1-based position of the file in the spine,
    the index path, the element path and the two offsets. *)
Theorem process_epub_found temp_dir query content_opf_path manifest spine
    spine_xml_position total_xml_elements pre file_path post elements element :
  find_content_opf fs parse temp_dir = Return content_opf_path ->
  parse_content_opf fs parse content_opf_path = Ok (manifest, spine) ->
  map_spine_to_files manifest spine (os_path_dirname content_opf_path)
  = Ok (pre ++ file_path :: post) ->
  get_spine_xml_position fs parse content_opf_path
  = Ok (spine_xml_position, total_xml_elements) ->
  (∀ f, f ∈ pre -> no_match_in fs parse f query) ->
  strings_of_file fs parse file_path = Some elements ->
  first_match elements query element ->
  file_path ≠ "" ->
  process_epub fs parse temp_dir query
  = Return
      ["Matching file: " +:+ file_path;
       "Spine index: " +:+ str_int spine_xml_position +:+ "/"
         +:+ str (length pre + 1);
       "File index: " +:+ join "/" (map str (trace element).2);
       "Element path: " +:+ join "/" (trace element).1;
       "Match start: " +:+ str_int (str_find (string_text element) query);
       "Match end: "
         +:+ str_int (str_find (string_text element) query + len query)].
Proof.
  intros Hfind Hparse Hmap Hpos Hpre Hfile Hfirst Hne.
  rewrite (process_epub_stages _ _ _ _ _ _ _ _ Hfind Hparse Hmap Hpos).
  unfold traverse_and_trace_query.
  rewrite (traverse_from_first_match fs parse _ _ _ _ _ _ elements element);
    [|done|done|done|].
  2:{ eapply strings_of_file_bool; [done|]. by eapply first_match_elem. }
  unfold report, matching_file_bool, address_of. simpl.
  by destruct file_path.
Qed.


End Run.

(** ** The further properties on the publications *)

Lemma locate_unreadable_witness :
  traverse_and_trace_query Publication.fs Publication.parse
    (["/tmp/epub/OEBPS/ch1.xhtml"] ++ "/tmp/epub/OEBPS/ch9.xhtml"
       :: ["/tmp/epub/OEBPS/ch2.xhtml"]) "world"
  = Raise (OSError "/tmp/epub/OEBPS/ch9.xhtml").
Proof.
  apply (locate_unreadable Publication.fs Publication.parse
           ["/tmp/epub/OEBPS/ch1.xhtml"] "/tmp/epub/OEBPS/ch9.xhtml"
           ["/tmp/epub/OEBPS/ch2.xhtml"] "world").
  - intros f Hf. apply list_elem_of_singleton in Hf. subst f.
    apply (no_match_in_check _ _ _ _ (find_all_strings Example.ch1)); reflexivity.
  - reflexivity.
Defined.

Lemma locate_result_bounds_witness :
  ∃ (i : nat) file_path element,
    locates Example.fs Example.parse ["OEBPS/ch1.xhtml"; "OEBPS/ch2.xhtml"] "world"
      world_address element ∧
    spine_idx world_address = Some (i + 1) ∧
    total_spines world_address = Some (length ["OEBPS/ch1.xhtml"; "OEBPS/ch2.xhtml"]) ∧
    1 ≤ i + 1 ≤ length ["OEBPS/ch1.xhtml"; "OEBPS/ch2.xhtml"] ∧
    ["OEBPS/ch1.xhtml"; "OEBPS/ch2.xhtml"] !! i = Some file_path ∧
    matching_file world_address = Some file_path ∧
    first_occurrence world_address (string_text element) "world" ∧
    ((start_offset world_address < end_offset world_address)%Z <-> "world" ≠ "").
Proof.
  apply (locate_result_bounds Example.fs Example.parse
           ["OEBPS/ch1.xhtml"; "OEBPS/ch2.xhtml"] "world" world_address).
  - reflexivity.
  - discriminate.
Defined.

Lemma locate_ignores_later_documents_witness :
  traverse_and_trace_query Example.fs Example.parse
    (["OEBPS/ch1.xhtml"] ++ "OEBPS/ch2.xhtml" :: ["OEBPS/fragment.xhtml"]) "world"
  = traverse_and_trace_query Variants.fs_truncated Example.parse
      (["OEBPS/ch1.xhtml"] ++ "OEBPS/ch2.xhtml" :: ["OEBPS/fragment.xhtml"]) "world" ∧
  traverse_and_trace_query Variants.fs_truncated Example.parse
    (["OEBPS/ch1.xhtml"] ++ "OEBPS/ch2.xhtml" :: ["OEBPS/fragment.xhtml"]) "world"
  = Ok (address_of (length ["OEBPS/ch1.xhtml"])
          (length (["OEBPS/ch1.xhtml"] ++ "OEBPS/ch2.xhtml" :: ["OEBPS/fragment.xhtml"]))
          "OEBPS/ch2.xhtml" Example.hello_world "world").
Proof.
  apply (locate_ignores_later_documents Example.fs Variants.fs_truncated Example.parse
           ["OEBPS/ch1.xhtml"] "OEBPS/ch2.xhtml" ["OEBPS/fragment.xhtml"] "world"
           (find_all_strings Example.ch2) Example.hello_world).
  - intros f Hf. apply elem_of_cons in Hf as [->|Hf]; [reflexivity|].
    apply list_elem_of_singleton in Hf. subst f. reflexivity.
  - intros f Hf. apply list_elem_of_singleton in Hf. subst f.
    apply (no_match_in_check _ _ _ _ (find_all_strings Example.ch1)); reflexivity.
  - reflexivity.
  - exists [mkStringRef "First" (mkTagRef "p" []
              (Some (mkTagRef "div" [] (Some (mkTagRef "body" []
                 (Some (mkTagRef "html" [] (Some document_ref)))))))) ], [].
    split; [reflexivity|]. split; [|reflexivity].
    intros e He. apply list_elem_of_singleton in He. subst e. reflexivity.
Defined.

Lemma parse_content_opf_manifest_witness :
  Variants.manifest !! "c2" = Some "ch2.xhtml" <->
  ∃ k item,
    find_all (BeautifulSoup Publication.parse Publication.opf_markup "xml") "item" !! k
    = Some item ∧
    getitem item "id" = Some "c2" ∧ getitem item "href" = Some "ch2.xhtml" ∧
    ∀ k' item',
      k < k' ->
      find_all (BeautifulSoup Publication.parse Publication.opf_markup "xml") "item" !! k'
      = Some item' ->
      getitem item' "id" ≠ Some "c2".
Proof.
  apply (parse_content_opf_manifest Publication.fs Publication.parse
           "/tmp/epub/OEBPS/content.opf" Publication.opf_markup
           Variants.manifest ["c1"; "c2"] "c2" "ch2.xhtml").
  - reflexivity.
  - reflexivity.
Defined.

Lemma parse_content_opf_spine_witness :
  length ["c1"; "c2"]
  = length (find_all (BeautifulSoup Publication.parse Publication.opf_markup "xml")
              "itemref") ∧
  ∀ i itemref,
    find_all (BeautifulSoup Publication.parse Publication.opf_markup "xml") "itemref" !! i
    = Some itemref ->
    getitem itemref "idref" = ["c1"; "c2"] !! i.
Proof.
  apply (parse_content_opf_spine Publication.fs Publication.parse
           "/tmp/epub/OEBPS/content.opf" Publication.opf_markup
           Variants.manifest ["c1"; "c2"]).
  - reflexivity.
  - reflexivity.
Defined.

Lemma parse_then_resolve_witness :
  ∃ files,
    map_spine_to_files Variants.manifest ["c1"; "c2"] "/tmp/epub/OEBPS" = Ok files ∧
    length files
    = length (find_all (BeautifulSoup Publication.parse Publication.opf_markup "xml")
                "itemref").
Proof.
  destruct (parse_then_resolve Publication.fs Publication.parse
              "/tmp/epub/OEBPS/content.opf" Publication.opf_markup
              Variants.manifest ["c1"; "c2"] "/tmp/epub/OEBPS" eq_refl eq_refl)
    as [Hok _].
  apply Hok. intros itemref idref Hin Hid.
  apply elem_of_cons in Hin as [->|Hin].
  - injection Hid as <-.
    exists (Tag "item" [("id", "c1"); ("href", "ch1.xhtml")] []).
    split; [left|reflexivity].
  - apply list_elem_of_singleton in Hin. subst itemref. injection Hid as <-.
    exists (Tag "item" [("id", "c2"); ("href", "ch2.xhtml")] []).
    split; [right; left|reflexivity].
Defined.

Lemma address_from_tree_witness :
  ∃ file_path content path element,
    matching_file world_address = Some file_path ∧
    Example.fs file_path = Some content ∧
    string_at document_ref (BeautifulSoup Example.parse content "html.parser") path
    = Some element ∧
    str_in "world" (string_text element) = true ∧
    element_path world_address
    = Some (join "/" ("[document][1]"
              :: map (fun s => step_label s.1 s.2)
                   (tree_steps (BeautifulSoup Example.parse content "html.parser") path))) ∧
    file_index world_address
    = Some (join "/" (map str (1
              :: map snd (filter (fun s : string * nat => s.1 ≠ "html")
                   (tree_steps (BeautifulSoup Example.parse content "html.parser") path))))) ∧
    length ("[document][1]"
              :: map (fun s => step_label s.1 s.2)
                   (tree_steps (BeautifulSoup Example.parse content "html.parser") path))
    = length path.
Proof.
  apply (address_from_tree Example.fs Example.parse
           ["OEBPS/ch1.xhtml"; "OEBPS/ch2.xhtml"] "world" world_address).
  - reflexivity.
  - discriminate.
Defined.



Lemma process_epub_not_found_witness :
  process_epub Publication.fs Publication.parse Publication.temp_dir "absent"
  = Return ["Query not found in the spine."; "Query not found."].
Proof.
  apply (process_epub_not_found Publication.fs Publication.parse
           Publication.temp_dir "absent" "/tmp/epub/OEBPS/content.opf"
           Variants.manifest ["c1"; "c2"]
           ["/tmp/epub/OEBPS/ch1.xhtml"; "/tmp/epub/OEBPS/ch2.xhtml"] 3%Z 3).
  - reflexivity.
  - reflexivity.
  - reflexivity.
  - reflexivity.
  - intros f Hf. apply elem_of_cons in Hf as [->|Hf].
    + apply (no_match_in_check _ _ _ _ (find_all_strings Example.ch1)); reflexivity.
    + apply list_elem_of_singleton in Hf. subst f.
      apply (no_match_in_check _ _ _ _ (find_all_strings Example.ch2)); reflexivity.
Defined.

Lemma process_epub_found_witness :
  process_epub Publication.fs Publication.parse Publication.temp_dir "world"
  = Return
      ["Matching file: " +:+ "/tmp/epub/OEBPS/ch2.xhtml";
       "Spine index: " +:+ str_int 3 +:+ "/"
         +:+ str (length ["/tmp/epub/OEBPS/ch1.xhtml"] + 1);
       "File index: " +:+ join "/" (map str (trace Example.hello_world).2);
       "Element path: " +:+ join "/" (trace Example.hello_world).1;
       "Match start: " +:+ str_int (str_find "Hello world" "world");
       "Match end: " +:+ str_int (str_find "Hello world" "world" + len "world")].
Proof.
  apply (process_epub_found Publication.fs Publication.parse
           Publication.temp_dir "world" "/tmp/epub/OEBPS/content.opf"
           Variants.manifest ["c1"; "c2"] 3%Z 3
           ["/tmp/epub/OEBPS/ch1.xhtml"] "/tmp/epub/OEBPS/ch2.xhtml" []
           (find_all_strings Example.ch2) Example.hello_world).
  - reflexivity.
  - reflexivity.
  - reflexivity.
  - reflexivity.
  - intros f Hf. apply list_elem_of_singleton in Hf. subst f.
    apply (no_match_in_check _ _ _ _ (find_all_strings Example.ch1)); reflexivity.
  - reflexivity.
  - exists [mkStringRef "First" (mkTagRef "p" []
              (Some (mkTagRef "div" [] (Some (mkTagRef "body" []
                 (Some (mkTagRef "html" [] (Some document_ref)))))))) ], [].
    split; [reflexivity|]. split; [|reflexivity].
    intros e He. apply list_elem_of_singleton in He. subst e. reflexivity.
  - discriminate.
Defined.

